(** * run_simulation.py: single-factor Monte Carlo loss simulation

    A shallow embedding of [src/run_simulation.py]: the threshold loader
    and the scenario loop of [simulate_losses_monte_carlo], the bounded
    queue between the two processes, and [data_consumer] with the part of
    sqlite3 it drives (transactions, primary key, named bindings).

    Numbers.  Python floats are kept as exact rationals extended with the
    two infinities and NaN ([pyfloat]): rounding and overflow of binary64
    are left out, its special values are kept.

    Libraries.  What the program calls but does not define
    ([scipy.stats.norm.ppf], [numpy.sqrt], numpy's global generator) is a
    value of the record [library]; the module globals the functions read
    are a value of [globals].  Every definition and theorem takes both,
    and [module_globals] holds the constants of the source.

    Order.  The program; the specification's wording of the scenario loop;
    a small instance to run the definitions on; then the facts and the
    claims C1 to C10. *)

From Stdlib Require Import ZArith QArith Lqa List Finite String Bool Lia Arith.
Import ListNotations.
Open Scope Z_scope.

(** ** Floating-point values *)

Inductive pyfloat : Type :=
| NaN
| NegInf
| Fin (q : Q)
| PosInf.

Definition Qltb (a b : Q) : bool :=
  (Qnum a * QDen b <? Qnum b * QDen a)%Z.

Definition Qzerob (a : Q) : bool := (Qnum a =? 0)%Z.

(** [x < y] on floats: every comparison with NaN is false. *)
Definition flt (x y : pyfloat) : bool :=
  match x, y with
  | NaN, _ | _, NaN => false
  | NegInf, NegInf => false
  | NegInf, _ => true
  | Fin _, NegInf => false
  | Fin a, Fin b => Qltb a b
  | Fin _, PosInf => true
  | PosInf, _ => false
  end.

Definition fneg (x : pyfloat) : pyfloat :=
  match x with
  | NaN => NaN
  | NegInf => PosInf
  | Fin a => Fin (- a)
  | PosInf => NegInf
  end.

Definition fadd (x y : pyfloat) : pyfloat :=
  match x, y with
  | NaN, _ | _, NaN => NaN
  | Fin a, Fin b => Fin (a + b)
  | PosInf, NegInf | NegInf, PosInf => NaN
  | PosInf, _ | _, PosInf => PosInf
  | NegInf, _ | _, NegInf => NegInf
  end.

Definition fsub (x y : pyfloat) : pyfloat := fadd x (fneg y).

(** An infinity times [a]: NaN for zero, else the sign rule. *)
Definition inf_times (positive : bool) (a : Q) : pyfloat :=
  if Qzerob a then NaN
  else if Bool.eqb positive (Qltb 0 a) then PosInf else NegInf.

Definition fmul (x y : pyfloat) : pyfloat :=
  match x, y with
  | NaN, _ | _, NaN => NaN
  | Fin a, Fin b => Fin (a * b)
  | PosInf, Fin a | Fin a, PosInf => inf_times true a
  | NegInf, Fin a | Fin a, NegInf => inf_times false a
  | PosInf, PosInf | NegInf, NegInf => PosInf
  | PosInf, NegInf | NegInf, PosInf => NegInf
  end.

Definition is_finite (x : pyfloat) : bool :=
  match x with Fin _ => true | _ => false end.

(** ** Dictionaries

    Python dictionaries keep insertion order; they are association lists
    with unique keys, [dict_set] overwriting in place. *)

Section Dict.
Context {V : Type}.

Fixpoint dict_get (k : string) (d : list (string * V)) : option V :=
  match d with
  | [] => None
  | (k', v) :: d' => if String.eqb k k' then Some v else dict_get k d'
  end.

Fixpoint dict_set (k : string) (v : V) (d : list (string * V))
  : list (string * V) :=
  match d with
  | [] => [(k, v)]
  | (k', v') :: d' =>
      if String.eqb k k' then (k, v) :: d' else (k', v') :: dict_set k v d'
  end.

Definition dict_keys (d : list (string * V)) : list string := map fst d.
End Dict.

Definition mem (k : string) (ks : list string) : bool :=
  existsb (String.eqb k) ks.

(** ** Module globals and library functions

    The functions read the module globals when they run; they are the
    fields of [globals], and [module_globals] holds the values of the
    source. *)

Record globals : Type := {
  ECONOMIC_SCENARIOS : Z;
  PORTFOLIO_SIZE : Z;
  RATES_OF_INTEREST : list string;
  BATCH_SIZE : Z;
  MAX_QUEUE_SIZE : Z
}.

Definition module_globals : globals := {|
  ECONOMIC_SCENARIOS := 10000000;
  PORTFOLIO_SIZE := 500;
  RATES_OF_INTEREST :=
    ["AA"; "A"; "BBB"; "BB"; "B"; "CCCtoC"; "inv_grad"; "spec_grad"]%string;
  BATCH_SIZE := 500;
  MAX_QUEUE_SIZE := 40
|}.

Definition ASSET_CORRELATION : pyfloat := Fin (16 # 100).

(** [insert_to_table_base_columns], as the module builds it from
    [RATES_OF_INTEREST]; it stands for the insert statement, whose named
    placeholders are these columns. *)
Definition insert_to_table_base_columns (cfg : globals) : list string :=
  app ["S_ID"; "Y"]%string
      (map (fun i => (i ++ "_L_RATIO")%string) (RATES_OF_INTEREST cfg)).

(** numpy's global generator ([rng] is its state), [numpy.sqrt] and
    [scipy.stats.norm.ppf]. *)
Record library : Type := {
  rng : Type;
  np_random_seed : Z -> rng;
  np_random_standard_normal : rng -> pyfloat * rng;
  np_sqrt : pyfloat -> pyfloat;
  norm_ppf : pyfloat -> pyfloat
}.

(** ** Data model *)

(** One object of the rating file: rating names and ["Year"] to numbers. *)
Definition json_object : Type := list (string * Q).

(** A value of [parsed_ratings_list]. *)
Record rating : Type := {
  pct : pyfloat;
  ppf : pyfloat;
  default_count : Z
}.

Definition ratings : Type := list (string * rating).

(** [dict_to_que]: one row of output. *)
Record scenario_record : Type := {
  S_ID : Z;
  Y : pyfloat;
  L_RATIO : list (string * Q)
}.

(** What travels through the queue: a batch, or [None]. *)
Definition item : Type := option (list scenario_record).

Inductive result (A : Type) : Type :=
| Ok (a : A)
| KeyError (k : string).
Arguments Ok {A} a.
Arguments KeyError {A} k.

(** ** The producer: [simulate_losses_monte_carlo] *)

Section Producer.
Variable lib : library.
Variable cfg : globals.

(** [for k in RATES_OF_INTEREST: ...] on the matching object. *)
Fixpoint parse_ratings (rating_list : json_object) (ks : list string)
    (parsed : ratings) : result ratings :=
  match ks with
  | [] => Ok parsed
  | k :: ks' =>
      match dict_get k rating_list with
      | None => KeyError k
      | Some p =>
          let pct := Fin (p / 100) in
          parse_ratings rating_list ks'
            (dict_set k {| pct := pct; ppf := norm_ppf lib pct;
                           default_count := 0 |} parsed)
      end
  end.

(** [for i in whole_rating_list: if i['Year'] == yearForRates: ...; break] *)
Fixpoint load_thresholds (whole_rating_list : list json_object)
    (yearForRates : Z) : result ratings :=
  match whole_rating_list with
  | [] => Ok []
  | i :: rest =>
      match dict_get "Year" i with
      | None => KeyError "Year"
      | Some y =>
          if Qeq_bool y (inject_Z yearForRates)
          then parse_ratings i (RATES_OF_INTEREST cfg) []
          else load_thresholds rest yearForRates
      end
  end.

Definition increment (values : rating) : rating :=
  {| pct := pct values; ppf := ppf values;
     default_count := default_count values + 1 |}.

Definition reset (values : rating) : rating :=
  {| pct := pct values; ppf := ppf values; default_count := 0 |}.

(** [for rate in parsed_ratings_list: if X < values['ppf']: ... += 1] *)
Definition count_defaults (X : pyfloat) (parsed : ratings) : ratings :=
  map (fun kv =>
         (fst kv, if flt X (ppf (snd kv)) then increment (snd kv)
                  else snd kv)) parsed.

Definition asset_value (Yv Zv rho1 rho2 : pyfloat) : pyfloat :=
  fadd (fmul Yv rho1) (fmul Zv rho2).

(** [for _ in range(0, PORTFOLIO_SIZE): ...] *)
Fixpoint obligors (n : nat) (Yv rho1 rho2 : pyfloat) (g : rng lib)
    (parsed : ratings) : rng lib * ratings :=
  match n with
  | O => (g, parsed)
  | S n' =>
      let (Zv, g') := np_random_standard_normal lib g in
      let X := asset_value Yv Zv rho1 rho2 in
      obligors n' Yv rho1 rho2 g' (count_defaults X parsed)
  end.

(** [l_ratio = 0] for a count of zero, else the quotient; a count is
    positive only with a positive [PORTFOLIO_SIZE], so the quotient is
    never by zero. *)
Definition l_ratio (values : rating) : Q :=
  if default_count values =? 0 then 0
  else inject_Z (default_count values) / inject_Z (PORTFOLIO_SIZE cfg).

Definition loss_columns (parsed : ratings) : list (string * Q) :=
  map (fun kv => ((fst kv ++ "_L_RATIO")%string, l_ratio (snd kv))) parsed.

Definition reset_counts (parsed : ratings) : ratings :=
  map (fun kv => (fst kv, reset (snd kv))) parsed.

(** The local variables of the function while the scenario loop runs;
    [puts] is what it has put on the queue so far, oldest first. *)
Record producer : Type := {
  gen : rng lib;
  parsed_ratings_list : ratings;
  data_to_que : list scenario_record;
  db_updated_x_times : Z;
  sim_id : Z;
  puts : list item
}.

(** One pass of [for _ in range(0, ECONOMIC_SCENARIOS)]. *)
Definition scenario (rho1 rho2 : pyfloat) (p : producer) : producer :=
  let (Yv, g1) := np_random_standard_normal lib (gen p) in
  let (g2, counted) :=
    obligors (Z.to_nat (PORTFOLIO_SIZE cfg)) Yv rho1 rho2 g1
             (parsed_ratings_list p) in
  let dict_to_que :=
    {| S_ID := sim_id p; Y := Yv; L_RATIO := loss_columns counted |} in
  let data := app (data_to_que p) [dict_to_que] in
  let next_id := sim_id p + 1 in
  if next_id >=? BATCH_SIZE cfg * (db_updated_x_times p + 1)
  then {| gen := g2; parsed_ratings_list := reset_counts counted;
          data_to_que := [];
          db_updated_x_times := db_updated_x_times p + 1;
          sim_id := next_id;
          puts := app (puts p) [Some data] |}
  else {| gen := g2; parsed_ratings_list := reset_counts counted;
          data_to_que := data;
          db_updated_x_times := db_updated_x_times p;
          sim_id := next_id;
          puts := puts p |}.

Fixpoint scenarios (n : nat) (rho1 rho2 : pyfloat) (p : producer)
  : producer :=
  match n with
  | O => p
  | S n' => scenarios n' rho1 rho2 (scenario rho1 rho2 p)
  end.

(** After the loop: the trailing batch, then [None]. *)
Definition finish (p : producer) : list item :=
  app (puts p)
      (app (match data_to_que p with [] => [] | _ :: _ => [Some (data_to_que p)] end)
           [None]).

Definition start (parsed : ratings) : producer :=
  {| gen := np_random_seed lib 25;
     parsed_ratings_list := parsed;
     data_to_que := [];
     db_updated_x_times := 0;
     sim_id := 1;
     puts := [] |}.

Definition rho1_of (asset_value_correlation : pyfloat) : pyfloat :=
  np_sqrt lib asset_value_correlation.

Definition rho2_of (asset_value_correlation : pyfloat) : pyfloat :=
  np_sqrt lib (fsub (Fin 1) asset_value_correlation).

Definition run_scenarios (parsed : ratings)
    (asset_value_correlation : pyfloat) : producer :=
  scenarios (Z.to_nat (ECONOMIC_SCENARIOS cfg))
            (rho1_of asset_value_correlation)
            (rho2_of asset_value_correlation) (start parsed).

(** The function: [g0] is the state of the global generator when it is
    entered, [whole_rating_list] the content of the rating file.  The
    result is the sequence of its [queue.put] calls, or the exception
    that ended it before the first one. *)
Definition simulate_losses_monte_carlo (g0 : rng lib)
    (whole_rating_list : list json_object) (yearForRates : Z)
    (asset_value_correlation : pyfloat) : result (list item) :=
  match load_thresholds whole_rating_list yearForRates with
  | KeyError k => KeyError k
  | Ok parsed => Ok (finish (run_scenarios parsed asset_value_correlation))
  end.

End Producer.

Arguments gen {lib} p.
Arguments parsed_ratings_list {lib} p.
Arguments data_to_que {lib} p.
Arguments db_updated_x_times {lib} p.
Arguments sim_id {lib} p.
Arguments puts {lib} p.
Arguments finish {lib} p.

(** ** The store: what the consumer drives of sqlite3

    [table] holds the committed rows, oldest first; [pending] is the table
    as the open transaction sees it, when one is open. *)

Record connection : Type := {
  table : list scenario_record;
  pending : option (list scenario_record);
  closed : bool
}.

(** How [data_consumer] ends: [break] at [None]; a [sqlite3.Error] caught
    by its handler; an exception that leaves the function. *)
Inductive ending : Type := Clean | Failed | Crashed.

(** The local variables of [data_consumer]; [gets] counts its
    [queue.get()] calls, [ended] is set once the [finally] block has run. *)
Record consumer : Type := {
  conn : connection;
  in_transaction : bool;
  gets : nat;
  ended : option ending
}.

Section Consumer.
(** Failures of the engine under an insert (full disk, I/O error): the
    rows the transaction holds and the row to add decide. *)
Variable disk_error : list scenario_record -> scenario_record -> bool.

(** The insert statement, as its list of named placeholders. *)
Variable insert_statement : list string.

Definition connect (rows : list scenario_record) : connection :=
  {| table := rows; pending := None; closed := false |}.

(** [cursor.execute('BEGIN TRANSACTION')]; an error inside a transaction. *)
Definition sql_begin (cn : connection) : connection * bool :=
  match pending cn with
  | None => ({| table := table cn; pending := Some (table cn);
                closed := closed cn |}, true)
  | Some _ => (cn, false)
  end.

(** [cursor.execute('ROLLBACK')]; an error outside a transaction. *)
Definition sql_rollback (cn : connection) : connection * bool :=
  match pending cn with
  | Some _ => ({| table := table cn; pending := None;
                  closed := closed cn |}, true)
  | None => (cn, false)
  end.

(** [conn.commit()]; nothing to do outside a transaction. *)
Definition sql_commit (cn : connection) : connection :=
  match pending cn with
  | Some rows => {| table := rows; pending := None; closed := closed cn |}
  | None => cn
  end.

(** [conn.close()]: an open transaction is lost. *)
Definition sql_close (cn : connection) : connection :=
  {| table := table cn; pending := None; closed := true |}.

Definition record_keys (r : scenario_record) : list string :=
  "S_ID"%string :: "Y"%string :: map fst (L_RATIO r).

(** Every placeholder of the statement has a key in the record. *)
Definition bound (r : scenario_record) : bool :=
  forallb (fun c => mem c (record_keys r)) insert_statement.

(** The row a record leaves in the table: keys that are no placeholder
    are not stored. *)
Definition stored (r : scenario_record) : scenario_record :=
  {| S_ID := S_ID r; Y := Y r;
     L_RATIO := filter (fun kv => mem (fst kv) insert_statement)
                       (L_RATIO r) |}.

Definition has_key (id : Z) (rows : list scenario_record) : bool :=
  existsb (fun r => S_ID r =? id) rows.

(** One insert: a missing binding, a primary key already in the table
    and a failure of the engine each raise a [sqlite3.Error]. *)
Definition insert_row (rows : list scenario_record) (r : scenario_record)
  : option (list scenario_record) :=
  if negb (bound r) then None
  else if has_key (S_ID r) rows then None
  else if disk_error rows r then None
  else Some (app rows [stored r]).

(** The rows of a batch in turn; those before a failing one stay in the
    transaction. *)
Fixpoint insert_rows (rows data : list scenario_record)
  : list scenario_record * bool :=
  match data with
  | [] => (rows, true)
  | r :: data' =>
      match insert_row rows r with
      | None => (rows, false)
      | Some rows' => insert_rows rows' data'
      end
  end.

(** [cursor.executemany(insert_statement, data)]; sqlite3 opens a
    transaction itself when none is open. *)
Definition executemany (data : list scenario_record) (cn : connection)
  : connection * bool :=
  let seen := match pending cn with Some rows => rows | None => table cn end in
  let (rows, ok) := insert_rows seen data in
  ({| table := table cn; pending := Some rows; closed := closed cn |}, ok).

(** The [finally] block. *)
Definition finally_block (c : consumer) (how : ending) : consumer :=
  {| conn := sql_close (if in_transaction c then sql_commit (conn c)
                        else conn c);
     in_transaction := in_transaction c;
     gets := gets c;
     ended := Some how |}.

(** The [except sqlite3.Error] block, then [finally]; a failing
    [ROLLBACK] leaves the handler with its own exception. *)
Definition except_block (c : consumer) : consumer :=
  if in_transaction c then
    let (cn, ok) := sql_rollback (conn c) in
    finally_block {| conn := cn; in_transaction := true; gets := gets c;
                     ended := None |}
                  (if ok then Failed else Crashed)
  else finally_block c Failed.

(** One pass of [while True], [data] being what [queue.get()] returned. *)
Definition receive (c : consumer) (data : item) : consumer :=
  let c := {| conn := conn c; in_transaction := in_transaction c;
              gets := S (gets c); ended := None |} in
  match data with
  | None => finally_block c Clean
  | Some rows =>
      let (cn1, ok1) :=
        if in_transaction c then (conn c, true) else sql_begin (conn c) in
      if negb ok1 then
        except_block {| conn := cn1; in_transaction := in_transaction c;
                        gets := gets c; ended := None |}
      else
        let (cn2, ok2) := executemany rows cn1 in
        if negb ok2 then
          except_block {| conn := cn2; in_transaction := true;
                          gets := gets c; ended := None |}
        else
          {| conn := sql_commit cn2; in_transaction := false;
             gets := gets c; ended := None |}
  end.

(** The loop over what the queue delivers, in order; with nothing left
    to get the consumer waits in [queue.get()]. *)
Fixpoint drain (c : consumer) (items : list item) : consumer :=
  match ended c, items with
  | Some _, _ => c
  | None, [] => c
  | None, data :: rest => drain (receive c data) rest
  end.

Definition begin_consumer (rows : list scenario_record) : consumer :=
  {| conn := connect rows; in_transaction := false; gets := 0;
     ended := None |}.

(** [data_consumer], on a store holding [rows] and a queue that delivers
    [items]. *)
Definition data_consumer (rows : list scenario_record)
    (items : list item) : consumer :=
  drain (begin_consumer rows) items.

(** ** The two processes and the queue between them

    [to_put] is what the producer has still to put, [channel] the content
    of the queue.  [queue.put] waits while a bounded queue is full, and
    [queue.get] while it is empty; a queue of size zero or less is not
    bounded. *)
Record system : Type := {
  to_put : list item;
  channel : list item;
  cons : consumer
}.

Variable maxsize : Z.

Definition full (ch : list item) : bool :=
  (0 <? maxsize) && (maxsize <=? Z.of_nat (List.length ch)).

Inductive step : system -> system -> Prop :=
| step_put : forall x rest ch c,
    full ch = false ->
    step {| to_put := x :: rest; channel := ch; cons := c |}
         {| to_put := rest; channel := app ch [x]; cons := c |}
| step_get : forall tp x ch c,
    ended c = None ->
    step {| to_put := tp; channel := x :: ch; cons := c |}
         {| to_put := tp; channel := ch; cons := receive c x |}.

Inductive steps : system -> system -> Prop :=
| steps_refl : forall s, steps s s
| steps_next : forall s1 s2 s3, steps s1 s2 -> step s2 s3 -> steps s1 s3.

Definition launch (items : list item) (rows : list scenario_record)
  : system :=
  {| to_put := items; channel := []; cons := begin_consumer rows |}.

End Consumer.

(** The records of a sequence of queue items, in order. *)
Definition batch_of (x : item) : list scenario_record :=
  match x with Some b => b | None => [] end.

Definition all_records (items : list item) : list scenario_record :=
  flat_map batch_of items.

Definition ids_upto (n : nat) : list Z :=
  map (fun i => Z.of_nat i + 1) (seq 0 n).

(** ** The scenario loop, as the specification words it

    Per scenario one draw [Y], then [PORTFOLIO_SIZE] draws [Z]; the asset
    values [X = Y*rho1 + Z*rho2]; per category the number of [X] below its
    threshold, over the portfolio size. *)

Section Specification.
Variable lib : library.
Variable cfg : globals.

Fixpoint draws (n : nat) (g : rng lib) : list pyfloat * rng lib :=
  match n with
  | O => ([], g)
  | S n' =>
      let (z, g') := np_random_standard_normal lib g in
      let (zs, g'') := draws n' g' in
      (z :: zs, g'')
  end.

Definition portfolio : nat := Z.to_nat (PORTFOLIO_SIZE cfg).

Definition asset_values (Yv rho1 rho2 : pyfloat) (Zs : list pyfloat)
  : list pyfloat :=
  map (fun Zv => asset_value Yv Zv rho1 rho2) Zs.

Definition defaults (threshold : pyfloat) (Xs : list pyfloat) : Z :=
  Z.of_nat (List.length (filter (fun X => flt X threshold) Xs)).

(** What the code records for a count. *)
Definition recorded_ratio (count : Z) : Q :=
  if count =? 0 then 0
  else inject_Z count / inject_Z (PORTFOLIO_SIZE cfg).

(** The generator before scenario [i] (from 0). *)
Fixpoint gen_at (i : nat) : rng lib :=
  match i with
  | O => np_random_seed lib 25
  | S i' =>
      snd (draws portfolio (snd (np_random_standard_normal lib (gen_at i'))))
  end.

Definition systemic (i : nat) : pyfloat :=
  fst (np_random_standard_normal lib (gen_at i)).

Definition scenario_values (rho1 rho2 : pyfloat) (i : nat) : list pyfloat :=
  asset_values (systemic i) rho1 rho2
    (fst (draws portfolio (snd (np_random_standard_normal lib (gen_at i))))).

Definition scenario_defaults (rho1 rho2 : pyfloat) (i : nat)
    (threshold : pyfloat) : Z :=
  defaults threshold (scenario_values rho1 rho2 i).

Definition spec_record (parsed : ratings) (rho1 rho2 : pyfloat) (i : nat)
  : scenario_record :=
  {| S_ID := Z.of_nat i + 1;
     Y := systemic i;
     L_RATIO :=
       map (fun kv =>
              ((fst kv ++ "_L_RATIO")%string,
               recorded_ratio (scenario_defaults rho1 rho2 i (ppf (snd kv)))))
           parsed |}.

Definition spec_records (parsed : ratings) (rho1 rho2 : pyfloat) (n : nat)
  : list scenario_record :=
  map (spec_record parsed rho1 rho2) (seq 0 n).

Definition add_count (k : Z) (values : rating) : rating :=
  {| pct := pct values; ppf := ppf values;
     default_count := default_count values + k |}.

Definition zeroed (parsed : ratings) : Prop :=
  Forall (fun kv => default_count (snd kv) = 0) parsed.

(** The records generated so far: those put on the queue, then those of
    the batch in hand. *)
Definition records (p : producer lib) : list scenario_record :=
  app (all_records (puts p)) (data_to_que p).

Definition built_record (rho1 rho2 : pyfloat) (p : producer lib)
  : scenario_record :=
  let Yv := fst (np_random_standard_normal lib (gen p)) in
  let Xs :=
    asset_values Yv rho1 rho2
      (fst (draws portfolio
              (snd (np_random_standard_normal lib (gen p))))) in
  {| S_ID := sim_id p; Y := Yv;
     L_RATIO :=
       map (fun kv =>
              ((fst kv ++ "_L_RATIO")%string,
               recorded_ratio (defaults (ppf (snd kv)) Xs)))
           (parsed_ratings_list p) |}.

End Specification.

Arguments records {lib} p.

(** ** The rating file *)

(** The rating the loader builds from a stored percentage. *)
Definition threshold_of (lib : library) (p : Q) : rating :=
  {| pct := Fin (p / 100); ppf := norm_ppf lib (Fin (p / 100));
     default_count := 0 |}.

(** An object of the file is, or is not, the one of the year. *)
Definition year_is (year : Z) (i : json_object) : Prop :=
  exists y, dict_get "Year" i = Some y /\ Qeq_bool y (inject_Z year) = true.

Definition other_year (year : Z) (i : json_object) : Prop :=
  exists y, dict_get "Year" i = Some y /\ Qeq_bool y (inject_Z year) = false.

(** ** What is assumed of the libraries, where a claim needs it *)


(** [norm.ppf(1.0)] is [inf] and [norm.ppf(0.0)] is [-inf]. *)
Definition ppf_at_bounds (lib : library) : Prop :=
  (forall q : Q, (q == 1)%Q -> norm_ppf lib (Fin q) = PosInf) /\
  (forall q : Q, (q == 0)%Q -> norm_ppf lib (Fin q) = NegInf).

(** The generator draws finite numbers. *)
Definition finite_draws (lib : library) : Prop :=
  forall g, is_finite (fst (np_random_standard_normal lib g)) = true.

(** ** A small instance of the libraries

    A generator that replays a table of draws (zero once it is used up), a
    square root that is exact on squares, and a quantile function that is
    linear inside the unit interval and infinite at its ends. *)

Definition replay_ppf (x : pyfloat) : pyfloat :=
  match x with
  | Fin p =>
      if Qltb p 0 then NaN
      else if Qzerob p then NegInf
      else if Qltb p 1 then Fin (2 * p - 1)
      else if Qltb 1 p then NaN
      else PosInf
  | _ => NaN
  end.

Definition replay_sqrt (x : pyfloat) : pyfloat :=
  match x with
  | Fin p =>
      if Qltb p 0 then NaN else Fin (Z.sqrt (Qnum p) # Pos.sqrt (Qden p))
  | PosInf => PosInf
  | _ => NaN
  end.

Definition replay_draw (g : list Q) : pyfloat * list Q :=
  match g with
  | [] => (Fin 0, [])
  | q :: g' => (Fin q, g')
  end.

Definition replay (draws : list Q) : library :=
  {| rng := list Q;
     np_random_seed := fun _ => draws;
     np_random_standard_normal := replay_draw;
     np_sqrt := replay_sqrt;
     norm_ppf := replay_ppf |}.

Definition small_globals (n p b : Z) (rates : list string) : globals :=
  {| ECONOMIC_SCENARIOS := n; PORTFOLIO_SIZE := p;
     RATES_OF_INTEREST := rates; BATCH_SIZE := b; MAX_QUEUE_SIZE := 40 |}.

Definition small_file : list json_object :=
  [ [("Year", 1); ("A", 30); ("B", 100)];
    [("Year", 3); ("A", 30); ("B", 80)];
    [("Year", 3); ("A", 50); ("B", 0)] ]%string%Q.

(** Three scenarios of two obligors, two rates, batches of two. *)
Definition small_lib : library := replay [0; 1; -1; 1; 0; 2; -1; -2; -2]%Q.

Definition small_run : globals := small_globals 3 2 2 ["A"; "B"]%string.

Definition small_parsed : ratings :=
  [("A", threshold_of small_lib 30); ("B", threshold_of small_lib 80)]%string.

(** What a result shows of the run: the systemic factors and the loss
    ratios, in the order of generation. *)
Definition systemic_factors (r : result (list item)) : list pyfloat :=
  match r with Ok items => map Y (all_records items) | KeyError _ => [] end.

Definition loss_ratios (r : result (list item))
  : list (list (string * Q)) :=
  match r with
  | Ok items => map L_RATIO (all_records items)
  | KeyError _ => []
  end.

Definition is_batch (x : item) : Prop :=
  match x with Some (_ :: _) => True | _ => False end.

Definition no_disk_error (rows : list scenario_record) (r : scenario_record)
  : bool := false.

(** [temp_columns] and [create_table_base_columns], as the module builds
    them from [RATES_OF_INTEREST]. *)
Definition temp_columns (cfg : globals) : list string :=
  map (fun i => (i ++ "_L_RATIO")%string) (RATES_OF_INTEREST cfg).

Definition create_table_base_columns (cfg : globals) : list string :=
  app ["S_ID INTEGER PRIMARY KEY"; "Y DECIMAL(8)"]%string
      (map (fun i => (i ++ " DECIMAL(6)")%string) (temp_columns cfg)).

(** The number of records of each item of the queue. *)
Definition batch_sizes (items : list item) : list Z :=
  map (fun x => Z.of_nat (List.length (batch_of x))) items.

(** What the two processes have still to do. *)
Definition work_left (s : system) : nat :=
  (2 * List.length (to_put s) + List.length (channel s))%nat.

(** The consumer between two batches: no transaction open, nothing ended. *)
Definition idle (c : consumer) : Prop :=
  in_transaction c = false /\ ended c = None /\
  pending (conn c) = None /\ closed (conn c) = false.

(** The threshold set has every rate in use. *)
Definition covers (cfg : globals) (parsed : ratings) : Prop :=
  forall k, In k (RATES_OF_INTEREST cfg) -> In k (dict_keys parsed).

(** A record with no loss ratio, for runs of the consumer alone. *)
Definition bare_record (id : Z) : scenario_record :=
  {| S_ID := id; Y := Fin 0; L_RATIO := [] |}.

(** ** Facts about the producer *)

Section ProducerFacts.
Variable lib : library.
Variable cfg : globals.

Lemma defaults_nonneg threshold Xs : 0 <= defaults threshold Xs.
Proof. unfold defaults. lia. Qed.

Lemma defaults_le_length threshold Xs :
  defaults threshold Xs <= Z.of_nat (List.length Xs).
Proof.
  unfold defaults. apply inj_le, filter_length_le.
Qed.

Lemma defaults_cons threshold X Xs :
  defaults threshold (X :: Xs) =
  (if flt X threshold then 1 else 0) + defaults threshold Xs.
Proof.
  unfold defaults. cbn [filter].
  destruct (flt X threshold); cbn [List.length]; lia.
Qed.

Lemma draws_length n : forall g, List.length (fst (draws lib n g)) = n.
Proof.
  induction n as [|n IH]; intro g; simpl.
  - reflexivity.
  - destruct (np_random_standard_normal lib g) as [z g'].
    specialize (IH g'). destruct (draws lib n g') as [zs g'']. simpl in *.
    now rewrite IH.
Qed.

(** The obligor loop leaves in every counter the number of asset values
    below the category's threshold, added to what it held. *)
Lemma obligors_spec n Yv rho1 rho2 : forall g parsed,
  obligors lib n Yv rho1 rho2 g parsed =
  (snd (draws lib n g),
   map (fun kv =>
          (fst kv,
           add_count (defaults (ppf (snd kv))
                        (asset_values Yv rho1 rho2 (fst (draws lib n g))))
                     (snd kv))) parsed).
Proof.
  induction n as [|n IH]; intros g parsed; simpl.
  - f_equal. rewrite <- (map_id parsed) at 1. apply map_ext.
    intros [k [p t c]]. unfold add_count, defaults. simpl.
    now rewrite Z.add_0_r.
  - destruct (np_random_standard_normal lib g) as [z g'].
    rewrite IH. destruct (draws lib n g') as [zs g'']. cbn [fst snd].
    f_equal. unfold count_defaults. rewrite map_map. apply map_ext.
    intros [k [p t c]]. cbn [fst snd].
    change (asset_values Yv rho1 rho2 (z :: zs))
      with (asset_value Yv z rho1 rho2 :: asset_values Yv rho1 rho2 zs).
    rewrite defaults_cons. unfold add_count, increment.
    cbn [pct ppf default_count fst snd].
    destruct (flt (asset_value Yv z rho1 rho2) t);
      cbn [pct ppf default_count]; f_equal; f_equal; lia.
Qed.

Lemma all_records_app a b :
  all_records (app a b) = app (all_records a) (all_records b).
Proof. apply flat_map_app. Qed.

Lemma reset_after_count (count : rating -> Z) parsed :
  zeroed parsed ->
  reset_counts (map (fun kv => (fst kv, add_count (count (snd kv)) (snd kv)))
                    parsed) = parsed.
Proof.
  intro Hz. unfold reset_counts. rewrite map_map.
  rewrite <- (map_id parsed) at 2. apply map_ext_in.
  intros [k [p t c]] Hin. unfold zeroed in Hz.
  rewrite Forall_forall in Hz. specialize (Hz _ Hin). simpl in Hz.
  subst c. reflexivity.
Qed.

Lemma loss_columns_after_count (count : rating -> Z) parsed :
  zeroed parsed ->
  loss_columns cfg
    (map (fun kv => (fst kv, add_count (count (snd kv)) (snd kv))) parsed) =
  map (fun kv => ((fst kv ++ "_L_RATIO")%string,
                  recorded_ratio cfg (count (snd kv)))) parsed.
Proof.
  intro Hz. unfold loss_columns. rewrite map_map. apply map_ext_in.
  intros [k [p t c]] Hin. unfold zeroed in Hz.
  rewrite Forall_forall in Hz. specialize (Hz _ Hin). simpl in Hz.
  subst c. reflexivity.
Qed.

(** One scenario: the generator moves past its draws, the thresholds and
    the zero counters are as before, the identifier grows by one, and
    one record is added. *)
Lemma scenario_spec rho1 rho2 (p : producer lib) :
  zeroed (parsed_ratings_list p) ->
  let p' := scenario lib cfg rho1 rho2 p in
  gen p' = snd (draws lib (portfolio cfg)
                  (snd (np_random_standard_normal lib (gen p)))) /\
  parsed_ratings_list p' = parsed_ratings_list p /\
  sim_id p' = sim_id p + 1 /\
  records p' = app (records p) [built_record lib cfg rho1 rho2 p].
Proof.
  intro Hz. unfold scenario, built_record, records.
  destruct (np_random_standard_normal lib (gen p)) as [Yv g1].
  rewrite obligors_spec. cbn [fst snd].
  rewrite (reset_after_count
             (fun v => defaults (ppf v) (asset_values Yv rho1 rho2
                (fst (draws lib (Z.to_nat (PORTFOLIO_SIZE cfg)) g1)))) _ Hz).
  rewrite (loss_columns_after_count
             (fun v => defaults (ppf v) (asset_values Yv rho1 rho2
                (fst (draws lib (Z.to_nat (PORTFOLIO_SIZE cfg)) g1)))) _ Hz).
  unfold portfolio.
  destruct (sim_id p + 1 >=? BATCH_SIZE cfg * (db_updated_x_times p + 1));
    cbn [gen parsed_ratings_list sim_id puts data_to_que];
    repeat split; try reflexivity.
  - rewrite all_records_app. cbn [all_records flat_map batch_of].
    now rewrite !app_nil_r, app_assoc.
  - now rewrite app_assoc.
Qed.

Lemma scenarios_last n rho1 rho2 : forall p : producer lib,
  scenarios lib cfg (S n) rho1 rho2 p =
  scenario lib cfg rho1 rho2 (scenarios lib cfg n rho1 rho2 p).
Proof.
  induction n as [|n IH]; intro p.
  - reflexivity.
  - change (scenarios lib cfg (S (S n)) rho1 rho2 p)
      with (scenarios lib cfg (S n) rho1 rho2 (scenario lib cfg rho1 rho2 p)).
    rewrite IH. reflexivity.
Qed.

(** The loop after [n] scenarios, against the specification. *)
Lemma scenarios_spec parsed rho1 rho2 n :
  zeroed parsed ->
  let p := scenarios lib cfg n rho1 rho2 (start lib parsed) in
  gen p = gen_at lib cfg n /\
  parsed_ratings_list p = parsed /\
  sim_id p = Z.of_nat n + 1 /\
  records p = spec_records lib cfg parsed rho1 rho2 n.
Proof.
  intro Hz. induction n as [|n IH].
  - cbn. repeat split; reflexivity.
  - cbv zeta in IH |- *. destruct IH as (Hg & Hp & Hi & Hr).
    rewrite scenarios_last.
    set (p := scenarios lib cfg n rho1 rho2 (start lib parsed)) in *.
    assert (Hz' : zeroed (parsed_ratings_list p)) by now rewrite Hp.
    destruct (scenario_spec rho1 rho2 p Hz') as (Hg' & Hp' & Hi' & Hr').
    repeat split.
    + rewrite Hg', Hg. reflexivity.
    + now rewrite Hp'.
    + rewrite Hi', Hi. lia.
    + rewrite Hr', Hr. unfold spec_records. rewrite seq_S, map_app.
      cbn [map]. f_equal. f_equal.
      unfold built_record, spec_record, scenario_defaults, scenario_values,
        systemic. rewrite Hg, Hp, Hi. reflexivity.
Qed.

Lemma all_records_finish (p : producer lib) :
  all_records (finish p) = records p.
Proof.
  unfold finish, records. rewrite !all_records_app.
  destruct (data_to_que p); cbn; now rewrite ?app_nil_r.
Qed.

End ProducerFacts.

(** ** Facts about the loader *)

Section LoaderFacts.
Variable lib : library.
Variable cfg : globals.

Lemma Qltb_lt a b : Qltb a b = true <-> (a < b)%Q.
Proof. unfold Qltb, Qlt. apply Z.ltb_lt. Qed.

Lemma Qltb_ge a b : Qltb a b = false <-> (b <= a)%Q.
Proof. unfold Qltb, Qle. rewrite Z.ltb_ge. reflexivity. Qed.

Lemma dict_get_set {V : Type} k k' (v : V) d :
  dict_get k (dict_set k' v d) =
  if String.eqb k k' then Some v else dict_get k d.
Proof.
  induction d as [|[k0 v0] d IH]; cbn [dict_set dict_get].
  - reflexivity.
  - destruct (String.eqb_spec k' k0) as [->|Hne0]; cbn [dict_get].
    + destruct (String.eqb_spec k k0); reflexivity.
    + rewrite IH. destruct (String.eqb_spec k k0) as [->|Hne1].
      * destruct (String.eqb_spec k0 k'); [congruence | reflexivity].
      * reflexivity.
Qed.

Lemma dict_get_keys {V : Type} k (v : V) d :
  dict_get k d = Some v -> In k (dict_keys d).
Proof.
  induction d as [|[k0 v0] d IH]; cbn [dict_get dict_keys map fst].
  - discriminate.
  - destruct (String.eqb_spec k k0) as [->|Hne].
    + intros _. now left.
    + intro H. right. now apply IH.
Qed.

Lemma mem_In k ks : mem k ks = true <-> In k ks.
Proof.
  unfold mem. rewrite existsb_exists. split.
  - intros (x & Hin & He). apply String.eqb_eq in He. now subst.
  - intro Hin. exists k. split; [assumption | apply String.eqb_refl].
Qed.

Lemma zeroed_dict_set k v parsed :
  zeroed parsed -> default_count v = 0 -> zeroed (dict_set k v parsed).
Proof.
  unfold zeroed. intros Hz Hv.
  induction parsed as [|[k0 v0] parsed IH]; cbn [dict_set].
  - constructor; [assumption | constructor].
  - inversion Hz; subst. destruct (String.eqb k k0).
    + constructor; assumption.
    + constructor; [assumption | now apply IH].
Qed.

(** What [parse_ratings] leaves under a key: the rating built from the
    stored percentage for a rate of the list, the old binding otherwise. *)
Lemma parse_ratings_get e ks : forall acc parsed,
  parse_ratings lib e ks acc = Ok parsed ->
  forall k, dict_get k parsed =
            if mem k ks then option_map (threshold_of lib) (dict_get k e)
            else dict_get k acc.
Proof.
  induction ks as [|k0 ks IH]; intros acc parsed H k; cbn [parse_ratings] in H.
  - inversion H; subst. reflexivity.
  - destruct (dict_get k0 e) as [p|] eqn:He; [|discriminate].
    rewrite (IH _ _ H k). unfold mem. cbn [existsb].
    fold (mem k ks). rewrite dict_get_set.
    destruct (mem k ks); [now rewrite orb_true_r|].
    rewrite orb_false_r. destruct (String.eqb_spec k k0) as [->|Hne].
    + rewrite He. reflexivity.
    + reflexivity.
Qed.

Lemma parse_ratings_zeroed e ks : forall acc parsed,
  zeroed acc -> parse_ratings lib e ks acc = Ok parsed -> zeroed parsed.
Proof.
  induction ks as [|k0 ks IH]; intros acc parsed Hz H; cbn [parse_ratings] in H.
  - now inversion H; subst.
  - destruct (dict_get k0 e) as [p|]; [|discriminate].
    eapply IH; [|exact H]. now apply zeroed_dict_set.
Qed.

(** Objects of other years are passed over; the first one of the year
    decides, whatever follows it. *)
Lemma load_thresholds_first pre e post year :
  Forall (other_year year) pre -> year_is year e ->
  load_thresholds lib cfg (app pre (e :: post)) year =
  parse_ratings lib e (RATES_OF_INTEREST cfg) [].
Proof.
  intros Hpre (y & Hy & Heq). induction Hpre as [|i pre (yi & Hyi & Hne) _ IH].
  - cbn [app load_thresholds]. now rewrite Hy, Heq.
  - cbn [app load_thresholds]. now rewrite Hyi, Hne.
Qed.


Lemma load_thresholds_zeroed file year parsed :
  load_thresholds lib cfg file year = Ok parsed -> zeroed parsed.
Proof.
  induction file as [|i file IH]; cbn [load_thresholds]; intro H.
  - inversion H; subst. constructor.
  - destruct (dict_get "Year" i) as [y|]; [|discriminate].
    destruct (Qeq_bool y (inject_Z year)).
    + eapply parse_ratings_zeroed; [|exact H]. constructor.
    + now apply IH.
Qed.

(** With the year in the file the threshold set has every rate in use. *)
Lemma load_thresholds_covers pre e post year parsed :
  Forall (other_year year) pre -> year_is year e ->
  load_thresholds lib cfg (app pre (e :: post)) year = Ok parsed ->
  covers cfg parsed.
Proof.
  intros Hpre He Hload k Hk.
  rewrite (load_thresholds_first pre e post year Hpre He) in Hload.
  pose proof (parse_ratings_get e _ _ _ Hload k) as Hget.
  apply mem_In in Hk. rewrite Hk in Hget.
  assert (Hsome : exists p, dict_get k e = Some p).
  { clear Hget. apply mem_In in Hk. revert Hload Hk.
    generalize (@nil (string * rating)).
    induction (RATES_OF_INTEREST cfg) as [|k0 ks IH]; intros acc Hload Hin.
    - destruct Hin.
    - cbn [parse_ratings] in Hload.
      destruct (dict_get k0 e) as [p|] eqn:Hk0; [|discriminate].
      destruct Hin as [<-|Hin]; [now exists p | eapply IH; eassumption]. }
  destruct Hsome as [p Hp]. rewrite Hp in Hget.
  eapply dict_get_keys. exact Hget.
Qed.

End LoaderFacts.


(** ** The small instance meets what is assumed of the libraries *)


Lemma replay_ppf_at_bounds draws : ppf_at_bounds (replay draws).
Proof.
  split; intros q Hq; cbn [norm_ppf replay replay_ppf].
  - assert (H0 : Qltb q 0 = false) by (apply Qltb_ge; lra).
    assert (H1 : Qltb q 1 = false) by (apply Qltb_ge; lra).
    assert (H2 : Qltb 1 q = false) by (apply Qltb_ge; lra).
    assert (Hz : Qzerob q = false).
    { unfold Qzerob. apply Z.eqb_neq.
      assert (Hq' : (0 < q)%Q) by lra. unfold Qlt in Hq'. simpl in Hq'. lia. }
    now rewrite H0, H1, H2, Hz.
  - assert (H0 : Qltb q 0 = false) by (apply Qltb_ge; lra).
    assert (Hz : Qzerob q = true).
    { unfold Qzerob. apply Z.eqb_eq. unfold Qeq in Hq. simpl in Hq. lia. }
    now rewrite H0, Hz.
Qed.

Lemma replay_finite_draws draws : finite_draws (replay draws).
Proof. intros [|q g]; reflexivity. Qed.

(** ** Claims about the threshold loader *)



(** C10: with several objects for the requested year, the first one in
    file order alone builds the threshold set: the result is that of its
    rates, and what follows it in the file does not matter. *)
Theorem first_entry_of_year_decides
    (lib : library) (cfg : globals) (pre : list json_object)
    (e : json_object) (post post' : list json_object) (year : Z) :
  Forall (other_year year) pre -> year_is year e ->
  load_thresholds lib cfg (app pre (e :: post)) year =
    parse_ratings lib e (RATES_OF_INTEREST cfg) [] /\
  load_thresholds lib cfg (app pre (e :: post)) year =
    load_thresholds lib cfg (app pre (e :: post')) year.
Proof.
  intros Hpre He. split.
  - now apply load_thresholds_first.
  - now rewrite !load_thresholds_first.
Qed.

Lemma first_entry_of_year_decides_witness :
  load_thresholds (replay []) (small_globals 2 2 2 ["A"; "B"]%string)
    small_file 3 =
    parse_ratings (replay []) [("Year", 3); ("A", 30); ("B", 80)]%string%Q
      ["A"; "B"]%string [] /\
  load_thresholds (replay []) (small_globals 2 2 2 ["A"; "B"]%string)
    small_file 3 =
    load_thresholds (replay []) (small_globals 2 2 2 ["A"; "B"]%string)
      [[("Year", 1); ("A", 30); ("B", 100)]%string%Q;
       [("Year", 3); ("A", 30); ("B", 80)]%string%Q] 3.
Proof.
  apply (first_entry_of_year_decides
           (replay []) (small_globals 2 2 2 ["A"; "B"]%string)
           [[("Year", 1); ("A", 30); ("B", 100)]%string%Q]
           [("Year", 3); ("A", 30); ("B", 80)]%string%Q
           [[("Year", 3); ("A", 50); ("B", 0)]%string%Q] [] 3).
  - constructor; [|constructor]. exists 1%Q. split; reflexivity.
  - exists 3%Q. split; reflexivity.
Defined.

(** ** The batches of the producer *)

Section Batching.
Variable lib : library.
Variable cfg : globals.

(** What one scenario does to the batch in hand and to the queue. *)
Lemma scenario_shape rho1 rho2 (p : producer lib) :
  exists r,
    S_ID r = sim_id p /\
    sim_id (scenario lib cfg rho1 rho2 p) = sim_id p + 1 /\
    if sim_id p + 1 >=? BATCH_SIZE cfg * (db_updated_x_times p + 1)
    then puts (scenario lib cfg rho1 rho2 p) =
           app (puts p) [Some (app (data_to_que p) [r])] /\
         data_to_que (scenario lib cfg rho1 rho2 p) = [] /\
         db_updated_x_times (scenario lib cfg rho1 rho2 p) =
           db_updated_x_times p + 1
    else puts (scenario lib cfg rho1 rho2 p) = puts p /\
         data_to_que (scenario lib cfg rho1 rho2 p) =
           app (data_to_que p) [r] /\
         db_updated_x_times (scenario lib cfg rho1 rho2 p) =
           db_updated_x_times p.
Proof.
  unfold scenario.
  destruct (np_random_standard_normal lib (gen p)) as [Yv g1].
  destruct (obligors lib (Z.to_nat (PORTFOLIO_SIZE cfg)) Yv rho1 rho2 g1
              (parsed_ratings_list p)) as [g2 counted].
  eexists. split; [|split].
  2: { destruct (sim_id p + 1 >=? _); reflexivity. }
  all: destruct (sim_id p + 1 >=? BATCH_SIZE cfg * (db_updated_x_times p + 1));
    cbn [puts data_to_que db_updated_x_times S_ID];
    repeat split; reflexivity.
Qed.

Lemma scenarios_add n m rho1 rho2 : forall p : producer lib,
  scenarios lib cfg (n + m) rho1 rho2 p =
  scenarios lib cfg m rho1 rho2 (scenarios lib cfg n rho1 rho2 p).
Proof.
  induction n as [|n IH]; intro p; cbn [Nat.add scenarios].
  - reflexivity.
  - apply IH.
Qed.

(** The queue only grows at its end. *)
Lemma puts_grow n rho1 rho2 : forall p : producer lib,
  exists more, puts (scenarios lib cfg n rho1 rho2 p) = app (puts p) more.
Proof.
  induction n as [|n IH]; intro p.
  - exists []. cbn. now rewrite app_nil_r.
  - rewrite scenarios_last. destruct (IH p) as [more Hm].
    destruct (scenario_shape rho1 rho2 (scenarios lib cfg n rho1 rho2 p))
      as (r & _ & _ & Hs).
    destruct (_ >=? _).
    + destruct Hs as (Hp & _ & _). rewrite Hp, Hm, <- app_assoc.
      eexists. reflexivity.
    + destruct Hs as (Hp & _ & _). rewrite Hp, Hm. eexists. reflexivity.
Qed.

(** Before the identifier reaches [BATCH_SIZE] nothing is put. *)
Lemma before_first_put parsed rho1 rho2 n :
  Z.of_nat n + 1 < BATCH_SIZE cfg ->
  let p := scenarios lib cfg n rho1 rho2 (start lib parsed) in
  puts p = [] /\ List.length (data_to_que p) = n /\
  sim_id p = Z.of_nat n + 1 /\ db_updated_x_times p = 0.
Proof.
  induction n as [|n IH]; intro Hlt.
  - cbn. repeat split; reflexivity.
  - cbv zeta in IH |- *. rewrite scenarios_last.
    destruct IH as (Hp & Hl & Hi & Hk); [lia|].
    destruct (scenario_shape rho1 rho2
                (scenarios lib cfg n rho1 rho2 (start lib parsed)))
      as (r & _ & Hi' & Hs).
    rewrite Hi, Hk in Hs.
    destruct (Z.geb_spec (Z.of_nat n + 1 + 1) (BATCH_SIZE cfg * (0 + 1)));
      [lia|].
    destruct Hs as (Hp' & Hd' & Hk').
    rewrite Hp', Hd', Hk', Hi', Hi, Hp, length_app, Hl.
    cbn [List.length]. repeat split; lia.
Qed.

(** The first batch is put when the identifier reaches [BATCH_SIZE]: it
    holds the records 1 to [BATCH_SIZE - 1]. *)
Lemma first_put parsed rho1 rho2 n :
  Z.of_nat n + 2 = BATCH_SIZE cfg ->
  exists b,
    puts (scenarios lib cfg (S n) rho1 rho2 (start lib parsed)) = [Some b] /\
    List.length b = S n.
Proof.
  intro Hn. rewrite scenarios_last.
  destruct (before_first_put parsed rho1 rho2 n) as (Hp & Hl & Hi & Hk); [lia|].
  destruct (scenario_shape rho1 rho2
              (scenarios lib cfg n rho1 rho2 (start lib parsed)))
    as (r & _ & _ & Hs).
  rewrite Hi, Hk in Hs.
  destruct (Z.geb_spec (Z.of_nat n + 1 + 1) (BATCH_SIZE cfg * (0 + 1)));
    [|lia].
  destruct Hs as (Hp' & _ & _). rewrite Hp', Hp. eexists. split.
  - reflexivity.
  - rewrite length_app, Hl. cbn [List.length]. lia.
Qed.

Lemma first_batch_short parsed rho :
  2 <= BATCH_SIZE cfg -> BATCH_SIZE cfg - 1 <= ECONOMIC_SCENARIOS cfg ->
  exists b rest,
    finish (run_scenarios lib cfg parsed rho) = Some b :: rest /\
    Z.of_nat (List.length b) = BATCH_SIZE cfg - 1.
Proof.
  intros HB HN. unfold run_scenarios.
  set (n := Z.to_nat (BATCH_SIZE cfg - 2)).
  set (m := Z.to_nat (ECONOMIC_SCENARIOS cfg - (BATCH_SIZE cfg - 1))).
  replace (Z.to_nat (ECONOMIC_SCENARIOS cfg)) with (S n + m)%nat by lia.
  rewrite scenarios_add.
  destruct (first_put parsed (rho1_of lib rho) (rho2_of lib rho) n)
    as (b & Hb & Hlen); [lia|].
  destruct (puts_grow m (rho1_of lib rho) (rho2_of lib rho)
              (scenarios lib cfg (S n) (rho1_of lib rho) (rho2_of lib rho)
                 (start lib parsed))) as (more & Hmore).
  unfold finish. rewrite Hmore, Hb. cbn [app].
  exists b. eexists. split; [reflexivity | lia].
Qed.

(** Only batches that hold a record are put by the loop. *)
Lemma puts_are_batches parsed rho1 rho2 n :
  Forall is_batch (puts (scenarios lib cfg n rho1 rho2 (start lib parsed))).
Proof.
  induction n as [|n IH].
  - constructor.
  - rewrite scenarios_last.
    destruct (scenario_shape rho1 rho2
                (scenarios lib cfg n rho1 rho2 (start lib parsed)))
      as (r & _ & _ & Hs).
    destruct (_ >=? _).
    + destruct Hs as (Hp & _ & _). rewrite Hp. apply Forall_app. split.
      * exact IH.
      * constructor; [|constructor].
        destruct (data_to_que _); exact I.
    + destruct Hs as (Hp & _ & _). now rewrite Hp.
Qed.

Lemma batch_sizes_app a b :
  batch_sizes (app a b) = app (batch_sizes a) (batch_sizes b).
Proof. apply map_app. Qed.

(** The loop after [n] scenarios, for a batch size of two or more: the
    batch in hand holds the records since the last put, and the batches
    put hold [BATCH_SIZE - 1] records for the first and [BATCH_SIZE] for
    every other. *)
Lemma loop_batches parsed rho1 rho2 n :
  2 <= BATCH_SIZE cfg ->
  let p := scenarios lib cfg n rho1 rho2 (start lib parsed) in
  sim_id p = Z.of_nat n + 1 /\
  0 <= db_updated_x_times p /\
  sim_id p < BATCH_SIZE cfg * (db_updated_x_times p + 1) /\
  Z.of_nat (List.length (data_to_que p)) =
    sim_id p - Z.max 1 (BATCH_SIZE cfg * db_updated_x_times p) /\
  (db_updated_x_times p = 0 \/
   BATCH_SIZE cfg * db_updated_x_times p <= sim_id p) /\
  batch_sizes (puts p) =
    if db_updated_x_times p =? 0 then []
    else (BATCH_SIZE cfg - 1)
         :: repeat (BATCH_SIZE cfg) (Z.to_nat (db_updated_x_times p - 1)).
Proof.
  intro HB. induction n as [|n IH].
  - cbn [scenarios start sim_id db_updated_x_times data_to_que puts
         List.length batch_sizes map].
    split; [lia|]. split; [lia|]. split; [lia|]. split; [lia|].
    split; [now left | reflexivity].
  - cbv zeta in IH |- *. rewrite scenarios_last.
    set (p := scenarios lib cfg n rho1 rho2 (start lib parsed)) in *.
    destruct IH as (Hs & Hk & Hlt & Hlen & Hge & Hsizes).
    destruct (scenario_shape rho1 rho2 p) as (r & _ & Hs' & Hshape).
    set (B := BATCH_SIZE cfg) in *. set (k := db_updated_x_times p) in *.
    destruct (Z.geb_spec (sim_id p + 1) (B * (k + 1))) as [Hput|Hkeep].
    + destruct Hshape as (Hp' & Hd' & Hk').
      rewrite Hp', Hd', Hk', Hs', batch_sizes_app, Hsizes.
      assert (Heq : sim_id p + 1 = B * (k + 1)) by lia.
      cbn [List.length batch_sizes map batch_of]. rewrite length_app.
      cbn [List.length].
      assert (Hk1 : (k + 1 =? 0) = false) by (apply Z.eqb_neq; lia).
      rewrite Hk1.
      split; [lia|]. split; [lia|]. split; [nia|]. split; [nia|].
      split; [right; lia|].
      destruct (Z.eqb_spec k 0) as [Hk0|Hk0].
      * rewrite Hk0 in *. cbn [app Z.to_nat repeat].
        replace (0 + 1 - 1) with 0 by lia. cbn [Z.to_nat repeat].
        f_equal. lia.
      * replace (Z.to_nat (k + 1 - 1)) with (S (Z.to_nat (k - 1))) by lia.
        assert (HBk : 2 <= B * k) by nia.
        replace (Z.of_nat (List.length (data_to_que p) + 1)) with B by lia.
        cbn [app]. f_equal. rewrite <- repeat_cons. reflexivity.
    + destruct Hshape as (Hp' & Hd' & Hk').
      rewrite Hp', Hd', Hk', Hs', Hsizes, length_app.
      cbn [List.length].
      split; [lia|]. split; [lia|]. split; [lia|]. split; [lia|].
      split; [|reflexivity].
      destruct Hge as [Hge|Hge]; [now left | right; lia].
Qed.

(** With a batch size of two or more no batch put holds more records
    than [BATCH_SIZE]. *)
Lemma batches_within_size parsed rho :
  2 <= BATCH_SIZE cfg ->
  Forall (fun size => size <= BATCH_SIZE cfg)
         (batch_sizes (finish (run_scenarios lib cfg parsed rho))).
Proof.
  intro HB. unfold run_scenarios.
  destruct (loop_batches parsed (rho1_of lib rho) (rho2_of lib rho)
              (Z.to_nat (ECONOMIC_SCENARIOS cfg)) HB)
    as (Hs & Hk & Hlt & Hlen & Hge & Hsizes).
  set (p := scenarios lib cfg (Z.to_nat (ECONOMIC_SCENARIOS cfg))
              (rho1_of lib rho) (rho2_of lib rho) (start lib parsed)) in *.
  unfold finish. rewrite !batch_sizes_app, Hsizes.
  apply Forall_app. split; [|apply Forall_app; split].
  - destruct (db_updated_x_times p =? 0); constructor; [lia|].
    apply Forall_forall. intros z Hz. apply repeat_spec in Hz. lia.
  - destruct (data_to_que p) as [|r b] eqn:Hd; [constructor|].
    constructor; [|constructor]. cbn [batch_of].
    rewrite Hlen. nia.
  - constructor; [|constructor]. cbn. lia.
Qed.

End Batching.

(** ** Claims about the scenario loop *)

Lemma recorded_ratio_facts (cfg : globals) (c : Z) :
  0 <= c <= PORTFOLIO_SIZE cfg ->
  (recorded_ratio cfg c == inject_Z c / inject_Z (PORTFOLIO_SIZE cfg))%Q /\
  (0 <= recorded_ratio cfg c)%Q /\ (recorded_ratio cfg c <= 1)%Q /\
  ((recorded_ratio cfg c == 0)%Q <-> c = 0).
Proof.
  intros [Hc0 HcP]. unfold recorded_ratio.
  destruct (Z.eqb_spec c 0) as [->|Hne].
  - split; [|split; [|split; [|split]]].
    + unfold Qdiv. symmetry.
      apply (Qmult_0_l (/ inject_Z (PORTFOLIO_SIZE cfg))).
    + apply Qle_refl.
    + discriminate.
    + reflexivity.
    + reflexivity.
  - assert (HcQ : (0 < inject_Z c)%Q)
      by (change 0%Q with (inject_Z 0); rewrite <- Zlt_Qlt; lia).
    assert (HPQ : (0 < inject_Z (PORTFOLIO_SIZE cfg))%Q)
      by (change 0%Q with (inject_Z 0); rewrite <- Zlt_Qlt; lia).
    assert (Hle : (inject_Z c <= inject_Z (PORTFOLIO_SIZE cfg))%Q)
      by (rewrite <- Zle_Qle; lia).
    assert (Hpos : (0 < inject_Z c / inject_Z (PORTFOLIO_SIZE cfg))%Q)
      by (apply Qlt_shift_div_l; [assumption | lra]).
    split; [|split; [|split; [|split]]].
    + reflexivity.
    + lra.
    + apply Qle_shift_div_r; [assumption | lra].
    + intro H. lra.
    + intro H. contradiction.
Qed.

Lemma scenario_values_length lib cfg rho1 rho2 i :
  List.length (scenario_values lib cfg rho1 rho2 i) = portfolio cfg.
Proof.
  unfold scenario_values, asset_values. rewrite length_map.
  apply draws_length.
Qed.

(** C1: the records of a run are those of the specification: scenario
    [i] holds, for every category of the threshold set, the ratio recorded
    for the number of its [PORTFOLIO_SIZE] asset values (one list of
    values for all categories) below the category's threshold.  That
    number [c] is between 0 and [PORTFOLIO_SIZE]; the recorded ratio equals
    [c / PORTFOLIO_SIZE], lies in [[0,1]], and is 0 exactly when [c] is 0.
    After every scenario all counters are zero again. *)
Theorem loss_ratio_is_default_fraction
    (lib : library) (cfg : globals) (g0 : rng lib)
    (file : list json_object) (year : Z) (rho : pyfloat)
    (parsed : ratings) (items : list item) :
  0 <= PORTFOLIO_SIZE cfg ->
  load_thresholds lib cfg file year = Ok parsed ->
  simulate_losses_monte_carlo lib cfg g0 file year rho = Ok items ->
  all_records items =
    spec_records lib cfg parsed (rho1_of lib rho) (rho2_of lib rho)
      (Z.to_nat (ECONOMIC_SCENARIOS cfg)) /\
  (forall (i : nat) (threshold : pyfloat),
     Z.of_nat (List.length
        (scenario_values lib cfg (rho1_of lib rho) (rho2_of lib rho) i)) =
       PORTFOLIO_SIZE cfg /\
     0 <= scenario_defaults lib cfg (rho1_of lib rho) (rho2_of lib rho)
            i threshold <= PORTFOLIO_SIZE cfg /\
     (recorded_ratio cfg
        (scenario_defaults lib cfg (rho1_of lib rho) (rho2_of lib rho)
           i threshold) ==
      inject_Z (scenario_defaults lib cfg (rho1_of lib rho) (rho2_of lib rho)
                  i threshold) / inject_Z (PORTFOLIO_SIZE cfg))%Q /\
     (0 <= recorded_ratio cfg
             (scenario_defaults lib cfg (rho1_of lib rho) (rho2_of lib rho)
                i threshold))%Q /\
     (recorded_ratio cfg
        (scenario_defaults lib cfg (rho1_of lib rho) (rho2_of lib rho)
           i threshold) <= 1)%Q /\
     ((recorded_ratio cfg
         (scenario_defaults lib cfg (rho1_of lib rho) (rho2_of lib rho)
            i threshold) == 0)%Q <->
      scenario_defaults lib cfg (rho1_of lib rho) (rho2_of lib rho)
        i threshold = 0)) /\
  (forall n : nat,
     zeroed (parsed_ratings_list
               (scenarios lib cfg n (rho1_of lib rho) (rho2_of lib rho)
                  (start lib parsed)))).
Proof.
  intros HP Hload Hsim. unfold simulate_losses_monte_carlo in Hsim.
  rewrite Hload in Hsim. inversion Hsim; subst items; clear Hsim.
  pose proof (load_thresholds_zeroed lib cfg file year parsed Hload) as Hz.
  split; [|split].
  - rewrite all_records_finish. unfold run_scenarios.
    now apply scenarios_spec.
  - intros i threshold.
    assert (Hlen : Z.of_nat (List.length
              (scenario_values lib cfg (rho1_of lib rho) (rho2_of lib rho) i))
            = PORTFOLIO_SIZE cfg).
    { rewrite scenario_values_length. unfold portfolio. lia. }
    assert (Hc : 0 <= scenario_defaults lib cfg (rho1_of lib rho)
                        (rho2_of lib rho) i threshold <= PORTFOLIO_SIZE cfg).
    { unfold scenario_defaults. split.
      - apply defaults_nonneg.
      - rewrite <- Hlen. apply defaults_le_length. }
    destruct (recorded_ratio_facts cfg _ Hc) as (H1 & H2 & H3 & H4).
    repeat split; try assumption; try apply Hc; apply H4.
  - intro n.
    destruct (scenarios_spec lib cfg parsed (rho1_of lib rho)
                (rho2_of lib rho) n Hz) as (_ & Hp & _).
    now rewrite Hp.
Qed.

Lemma loss_ratio_is_default_fraction_witness :
  all_records (finish (run_scenarios small_lib small_run small_parsed (Fin 0)))
  = spec_records small_lib small_run small_parsed
      (rho1_of small_lib (Fin 0)) (rho2_of small_lib (Fin 0)) 3.
Proof.
  refine (proj1 (loss_ratio_is_default_fraction small_lib small_run []
                   small_file 3 (Fin 0) small_parsed
                   (finish (run_scenarios small_lib small_run small_parsed
                              (Fin 0))) _ _ _)).
  - cbn. lia.
  - reflexivity.
  - reflexivity.
Defined.

Lemma spec_records_systemic lib cfg parsed rho1 rho2 n :
  map Y (spec_records lib cfg parsed rho1 rho2 n) =
  map (systemic lib cfg) (seq 0 n).
Proof. unfold spec_records. now rewrite map_map. Qed.

(** C4: the generator is seeded anew when the function is entered, so
    whatever state it was in before, the same file, year, correlation and
    globals give the same puts: the same systemic factors and the same
    loss ratios, scenario by scenario.  The systemic factors of a run are
    those the generator seeded with 25 draws, one after every
    [PORTFOLIO_SIZE] draws for the obligors. *)
Theorem same_parameters_same_output
    (lib : library) (cfg : globals) (g g' : rng lib)
    (file : list json_object) (year : Z) (rho : pyfloat) :
  simulate_losses_monte_carlo lib cfg g file year rho =
    simulate_losses_monte_carlo lib cfg g' file year rho /\
  systemic_factors (simulate_losses_monte_carlo lib cfg g file year rho) =
    systemic_factors (simulate_losses_monte_carlo lib cfg g' file year rho) /\
  loss_ratios (simulate_losses_monte_carlo lib cfg g file year rho) =
    loss_ratios (simulate_losses_monte_carlo lib cfg g' file year rho) /\
  systemic_factors (simulate_losses_monte_carlo lib cfg g file year rho) =
    match load_thresholds lib cfg file year with
    | Ok _ => map (systemic lib cfg)
                  (seq 0 (Z.to_nat (ECONOMIC_SCENARIOS cfg)))
    | KeyError _ => []
    end.
Proof.
  split; [reflexivity|]. split; [reflexivity|]. split; [reflexivity|].
  unfold simulate_losses_monte_carlo.
  destruct (load_thresholds lib cfg file year) as [parsed|k] eqn:Hload.
  - cbn [systemic_factors]. rewrite all_records_finish.
    unfold run_scenarios.
    pose proof (load_thresholds_zeroed lib cfg file year parsed Hload) as Hz.
    destruct (scenarios_spec lib cfg parsed (rho1_of lib rho)
                (rho2_of lib rho) (Z.to_nat (ECONOMIC_SCENARIOS cfg)) Hz)
      as (_ & _ & _ & Hrec).
    rewrite Hrec. apply spec_records_systemic.
  - reflexivity.
Qed.

(** C5: with the globals of the source the first batch put on the queue
    holds 499 records, one less than [BATCH_SIZE]: the identifier starts
    at 1 and has been incremented when it is compared with the size.  No
    batch holds more than [BATCH_SIZE] records. *)
Theorem first_batch_has_499_records
    (lib : library) (parsed : ratings) (rho : pyfloat) :
  (exists b rest,
     finish (run_scenarios lib module_globals parsed rho) = Some b :: rest /\
     List.length b = 499%nat) /\
  Forall (fun size => size <= 500)
         (batch_sizes (finish (run_scenarios lib module_globals parsed rho))).
Proof.
  split.
  - destruct (first_batch_short lib module_globals parsed rho)
      as (b & rest & H & Hl).
    + cbn. lia.
    + cbn. lia.
    + exists b, rest. split; [exact H|]. cbn in Hl. lia.
  - apply (batches_within_size lib module_globals parsed rho). cbn. lia.
Qed.

(** ** Facts about the consumer *)

Section ConsumerFacts.
Variable disk_error : list scenario_record -> scenario_record -> bool.
Variable insert_statement : list string.

Local Abbreviation receive_ := (receive disk_error insert_statement).
Local Abbreviation drain_ := (drain disk_error insert_statement).
Local Abbreviation insert_rows_ := (insert_rows disk_error insert_statement).
Local Abbreviation insert_row_ := (insert_row disk_error insert_statement).
Local Abbreviation stored_ := (stored insert_statement).
Local Abbreviation bound_ := (bound insert_statement).

Lemma drain_ended c e items : ended c = Some e -> drain_ c items = c.
Proof. intro H. destruct items; cbn [drain]; now rewrite H. Qed.

Lemma drain_cons c x items :
  ended c = None -> drain_ c (x :: items) = drain_ (receive_ c x) items.
Proof. intro H. cbn [drain]. now rewrite H. Qed.

Lemma drain_nil c : drain_ c [] = c.
Proof. cbn [drain]. now destruct (ended c). Qed.

Lemma drain_app items : forall c more,
  drain_ c (app items more) = drain_ (drain_ c items) more.
Proof.
  induction items as [|x items IH]; intros c more.
  - cbn [app]. now rewrite drain_nil.
  - cbn [app]. destruct (ended c) eqn:He.
    + rewrite (drain_ended c e (x :: app items more) He).
      rewrite (drain_ended c e (x :: items) He).
      now rewrite (drain_ended c e more He).
    + rewrite !drain_cons by assumption. apply IH.
Qed.

(** A batch between two transactions: either every row goes in and the
    transaction is committed, or a row fails, the transaction is rolled
    back and the function ends. *)
Lemma receive_batch c rows :
  idle c ->
  receive_ c (Some rows) =
  if snd (insert_rows_ (table (conn c)) rows)
  then {| conn := {| table := fst (insert_rows_ (table (conn c)) rows);
                     pending := None; closed := false |};
          in_transaction := false; gets := S (gets c); ended := None |}
  else {| conn := {| table := table (conn c); pending := None;
                     closed := true |};
          in_transaction := true; gets := S (gets c);
          ended := Some Failed |}.
Proof.
  destruct c as [[t pd cl] tr n en]. unfold idle. cbn [conn in_transaction
    ended pending closed table gets].
  intros (-> & -> & -> & ->).
  unfold receive, sql_begin, executemany.
  cbn [conn in_transaction ended pending closed table gets negb].
  destruct (insert_rows_ t rows) as [rows' ok]. cbn [fst snd].
  destruct ok; reflexivity.
Qed.

Lemma receive_none c :
  idle c ->
  receive_ c None =
  {| conn := {| table := table (conn c); pending := None; closed := true |};
     in_transaction := false; gets := S (gets c); ended := Some Clean |}.
Proof.
  destruct c as [[t pd cl] tr n en]. unfold idle. cbn [conn in_transaction
    ended pending closed table gets].
  intros (-> & -> & -> & ->). reflexivity.
Qed.

Lemma S_ID_stored r : S_ID (stored_ r) = S_ID r.
Proof. reflexivity. Qed.

Lemma has_key_false id rows :
  ~ In id (map S_ID rows) -> has_key id rows = false.
Proof.
  intro H. unfold has_key. apply not_true_is_false. intro Hex.
  apply existsb_exists in Hex. destruct Hex as (r & Hin & Heq).
  apply Z.eqb_eq in Heq. apply H. rewrite <- Heq. now apply in_map.
Qed.

(** Rows that are inserted are appended as stored_. *)
Lemma insert_rows_true data : forall rows rows',
  insert_rows_ rows data = (rows', true) ->
  rows' = app rows (map stored_ data).
Proof.
  induction data as [|r data IH]; intros rows rows' H;
    cbn [insert_rows] in H.
  - inversion H. now rewrite app_nil_r.
  - destruct (insert_row_ rows r) as [rows1|] eqn:Hr; [|discriminate].
    apply IH in H. subst rows'. unfold insert_row in Hr.
    destruct (negb (bound_ r)); [discriminate|].
    destruct (has_key (S_ID r) rows); [discriminate|].
    destruct (disk_error rows r); [discriminate|].
    inversion Hr; subst. cbn [map]. now rewrite <- app_assoc.
Qed.

(** Bound rows with fresh keys go in when the engine does not fail. *)
Lemma insert_rows_ok data : forall rows,
  (forall rows r, disk_error rows r = false) ->
  (forall r, In r data -> bound_ r = true) ->
  NoDup (app (map S_ID rows) (map S_ID data)) ->
  insert_rows_ rows data = (app rows (map stored_ data), true).
Proof.
  intro rows. revert rows.
  induction data as [|r data IH]; intros rows Hdisk Hb Hnd;
    cbn [insert_rows map].
  - now rewrite app_nil_r.
  - unfold insert_row. rewrite (Hb r) by now left.
    cbn [negb]. rewrite has_key_false, Hdisk.
    + rewrite IH.
      * now rewrite <- app_assoc.
      * assumption.
      * intros r' Hin. apply Hb. now right.
      * rewrite map_app. cbn [map]. rewrite S_ID_stored, <- app_assoc.
        exact Hnd.
    + cbn [map] in Hnd. apply NoDup_remove_2 in Hnd.
      intro Hin. apply Hnd. apply in_or_app. now left.
Qed.

(** While the consumer has not ended on a run of batches, each was
    committed: the table has grown by their rows, in order. *)
Lemma drain_batches batches : forall c,
  idle c ->
  ended (drain_ c (map Some batches)) = None ->
  idle (drain_ c (map Some batches)) /\
  table (conn (drain_ c (map Some batches))) =
    app (table (conn c)) (map stored_ (List.concat batches)) /\
  gets (drain_ c (map Some batches)) = (gets c + List.length batches)%nat.
Proof.
  induction batches as [|b batches IH]; intros c Hidle Hen.
  - cbn [map] in *. destruct Hidle as (Ht & He & Hp & Hc).
    cbn [drain]. rewrite He. cbn [List.concat map List.length].
    rewrite app_nil_r, Nat.add_0_r. repeat split; assumption.
  - cbn [map] in *. pose proof Hidle as (Ht & He & Hp & Hc).
    rewrite drain_cons in * by assumption.
    rewrite receive_batch in * by assumption.
    destruct (insert_rows_ (table (conn c)) b) as [rows' ok] eqn:Hins.
    cbn [fst snd] in *. destruct ok.
    + apply insert_rows_true in Hins. subst rows'.
      apply IH in Hen as (Hi & Htab & Hg); [|repeat split; reflexivity].
      split; [exact Hi|]. split.
      * rewrite Htab. cbn [conn table List.concat]. now rewrite map_app, app_assoc.
      * rewrite Hg. cbn [gets List.length]. lia.
    + rewrite (drain_ended _ Failed) in Hen by reflexivity. discriminate.
Qed.

(** Batches that can all be inserted are all committed. *)
Lemma drain_batches_ok batches : forall c,
  idle c ->
  (forall rows r, disk_error rows r = false) ->
  (forall r, In r (List.concat batches) -> bound_ r = true) ->
  NoDup (app (map S_ID (table (conn c))) (map S_ID (List.concat batches))) ->
  ended (drain_ c (map Some batches)) = None.
Proof.
  induction batches as [|b batches IH]; intros c Hidle Hdisk Hb Hnd.
  - cbn [map]. destruct Hidle as (Ht & He & Hp & Hc).
    cbn [drain]. now rewrite He.
  - cbn [map List.concat] in *. pose proof Hidle as (Ht & He & Hp & Hc).
    rewrite drain_cons by assumption. rewrite receive_batch by assumption.
    rewrite map_app, app_assoc in Hnd.
    rewrite insert_rows_ok.
    + cbn [fst snd]. apply IH.
      * repeat split; reflexivity.
      * assumption.
      * intros r Hin. apply Hb. apply in_or_app. now right.
      * cbn [conn table]. rewrite map_app.
        replace (map S_ID (map stored_ b)) with (map S_ID b)
          by (rewrite map_map; reflexivity).
        exact Hnd.
    + assumption.
    + intros r Hin. apply Hb. apply in_or_app. now left.
    + now apply NoDup_app_remove_r in Hnd.
Qed.

Lemma begin_consumer_idle rows : idle (begin_consumer rows).
Proof. repeat split; reflexivity. Qed.

End ConsumerFacts.

(** ** Facts about the queue between the processes *)

Section ChannelFacts.
Variable disk_error : list scenario_record -> scenario_record -> bool.
Variable insert_statement : list string.
Variable maxsize : Z.

Local Abbreviation step_ := (step disk_error insert_statement maxsize).
Local Abbreviation steps_ := (steps disk_error insert_statement maxsize).
Local Abbreviation run_ := (drain disk_error insert_statement).

(** First in, first out: at any time what the consumer has processed,
    what waits in the queue and what is still to be put make up, in this
    order, the puts of the producer. *)
Lemma steps_fifo items rows s :
  steps_ (launch items rows) s ->
  exists consumed,
    items = app consumed (app (channel s) (to_put s)) /\
    cons s = run_ (begin_consumer rows) consumed.
Proof.
  intro H. remember (launch items rows) as s0 eqn:Hs0.
  induction H as [s|s1 s2 s3 _ IH Hstep].
  - subst s. exists []. split; reflexivity.
  - destruct (IH Hs0) as (consumed & Hitems & Hcons).
    destruct Hstep as [x rest ch c Hfull | tp x ch c Hen];
      cbn [to_put channel cons] in *.
    + exists consumed. split; [|assumption].
      now rewrite <- app_assoc.
    + exists (app consumed [x]). split.
      * now rewrite <- app_assoc.
      * rewrite drain_app, <- Hcons, drain_cons by assumption.
        now rewrite drain_nil.
Qed.

(** No deadlock: while the consumer has not ended and an item is in the
    queue or still to be put, one of the two processes can move. *)
Lemma step_possible s :
  ended (cons s) = None ->
  app (channel s) (to_put s) <> [] ->
  exists s', step_ s s'.
Proof.
  destruct s as [tp ch c]. cbn [to_put channel cons]. intros Hen Hne.
  destruct ch as [|x ch].
  - destruct tp as [|x rest]; [contradiction|].
    eexists. apply step_put. unfold full. cbn [List.length].
    destruct (Z.ltb_spec 0 maxsize); destruct (Z.leb_spec maxsize (Z.of_nat 0));
      cbn; try reflexivity; lia.
  - eexists. now apply step_get.
Qed.

Lemma steps_trans s1 s2 s3 : steps_ s1 s2 -> steps_ s2 s3 -> steps_ s1 s3.
Proof.
  intros H12 H23. induction H23 as [|s2 s3 s4 _ IH Hstep].
  - assumption.
  - eapply steps_next; [apply IH; assumption | exact Hstep].
Qed.

Lemma step_less_work s s' : step_ s s' -> (work_left s' < work_left s)%nat.
Proof.
  intros [x rest ch c Hfull | tp x ch c Hen]; unfold work_left;
    cbn [to_put channel List.length]; rewrite ?length_app;
    cbn [List.length]; lia.
Qed.

(** Every run goes on until the consumer has ended or nothing is left. *)
Lemma steps_complete s :
  exists s', steps_ s s' /\
    (ended (cons s') <> None \/ app (channel s') (to_put s') = []).
Proof.
  remember (work_left s) as n eqn:Hn. revert s Hn.
  induction n as [n IH] using lt_wf_ind. intros s Hn.
  destruct (ended (cons s)) as [e|] eqn:He.
  - exists s. split; [constructor | left; congruence].
  - destruct (app (channel s) (to_put s)) as [|x l] eqn:Hl.
    + exists s. split; [constructor | now right].
    + destruct (step_possible s He) as [s1 Hstep]; [congruence|].
      destruct (IH (work_left s1)) with (s := s1) as (s' & Hsteps & Hfin).
      * subst n. now apply step_less_work.
      * reflexivity.
      * exists s'. split; [|assumption].
        eapply steps_trans; [|exact Hsteps].
        eapply steps_next; [constructor | exact Hstep].
Qed.

(** A consumer that has been given [None] has ended. *)
Lemma drain_sentinel c items :
  ended (run_ c (app items [None])) <> None.
Proof.
  rewrite drain_app.
  destruct (ended (run_ c items)) as [e|] eqn:He.
  - rewrite (drain_ended _ _ _ e) by assumption. congruence.
  - rewrite drain_cons by assumption. rewrite drain_nil.
    cbn. discriminate.
Qed.

End ChannelFacts.

(** ** A whole run: producer, queue and consumer *)

Lemma ids_upto_length n : List.length (ids_upto n) = n.
Proof. unfold ids_upto. now rewrite length_map, length_seq. Qed.

Lemma firstn_length_app {A : Type} (l1 l2 : list A) :
  firstn (List.length l1) (app l1 l2) = l1.
Proof.
  rewrite firstn_app, firstn_all, Nat.sub_diag. cbn [firstn].
  apply app_nil_r.
Qed.

Lemma ids_upto_prefix n l1 l2 :
  ids_upto n = app l1 l2 -> l1 = ids_upto (List.length l1).
Proof.
  intro H. assert (Hlen : (List.length l1 <= n)%nat).
  { apply (f_equal (@List.length Z)) in H.
    rewrite ids_upto_length, length_app in H. lia. }
  assert (Hsplit : ids_upto n =
            app (ids_upto (List.length l1))
                (map (fun i => Z.of_nat i + 1)
                     (seq (List.length l1) (n - List.length l1)))).
  { unfold ids_upto. rewrite <- map_app, <- seq_app. f_equal. f_equal. lia. }
  apply (f_equal (firstn (List.length l1))) in H.
  rewrite firstn_length_app, Hsplit in H.
  rewrite <- (ids_upto_length (List.length l1)) in H at 1.
  rewrite firstn_length_app in H. now symmetry.
Qed.

Lemma ids_upto_NoDup n : NoDup (ids_upto n).
Proof.
  unfold ids_upto. apply Injective_map_NoDup; [|apply seq_NoDup].
  intros a b Hab. lia.
Qed.

Lemma spec_records_ids lib cfg parsed rho1 rho2 n :
  map S_ID (spec_records lib cfg parsed rho1 rho2 n) = ids_upto n.
Proof. unfold spec_records, ids_upto. now rewrite map_map. Qed.

Lemma all_records_batches batches :
  all_records (map Some batches) = List.concat batches.
Proof.
  unfold all_records.
  induction batches as [|b bs IH]; cbn [map flat_map batch_of List.concat].
  - reflexivity.
  - now rewrite IH.
Qed.

Lemma batches_of_items items :
  Forall is_batch items ->
  exists batches, items = map Some batches /\ Forall (fun b => b <> []) batches.
Proof.
  induction 1 as [|x items Hx _ (batches & -> & Hne)].
  - exists []. split; [reflexivity | constructor].
  - destruct x as [[|r b]|]; try contradiction.
    exists ((r :: b) :: batches). split; [reflexivity|].
    constructor; [discriminate | assumption].
Qed.

(** The puts of a run: batches that hold a record, then [None]. *)
Lemma finish_batches lib cfg parsed rho1 rho2 n :
  exists batches,
    finish (scenarios lib cfg n rho1 rho2 (start lib parsed)) =
      app (map Some batches) [None] /\
    Forall (fun b => b <> []) batches.
Proof.
  destruct (batches_of_items _ (puts_are_batches lib cfg parsed rho1 rho2 n))
    as (batches & Hp & Hne).
  unfold finish. rewrite Hp.
  destruct (data_to_que _) as [|r b] eqn:Hd.
  - exists batches. split; [reflexivity | assumption].
  - exists (app batches [r :: b]). split.
    + now rewrite map_app, <- app_assoc.
    + apply Forall_app. split; [assumption|].
      constructor; [discriminate | constructor].
Qed.

Lemma items_prefix batches : forall consumed rest,
  app consumed rest = app (map Some batches) [@None (list scenario_record)] ->
  (exists bs1 bs2, batches = app bs1 bs2 /\ consumed = map Some bs1 /\
                   rest = app (map Some bs2) [None]) \/
  (consumed = app (map Some batches) [None] /\ rest = []).
Proof.
  induction batches as [|b batches IH]; intros consumed rest H.
  - cbn [map app] in H. destruct consumed as [|x consumed].
    + left. exists [], []. cbn [app] in H. subst rest.
      split; [|split]; reflexivity.
    + right. cbn [app] in H. inversion H as [[Hx Hc]].
      apply app_eq_nil in Hc as [-> ->]. split; reflexivity.
  - cbn [map app] in H. destruct consumed as [|x consumed].
    + left. exists [], (b :: batches). cbn [app] in H. subst rest.
      split; [|split]; reflexivity.
    + cbn [app] in H. inversion H as [[Hx Hc]]. subst x.
      destruct (IH _ _ Hc) as [(bs1 & bs2 & -> & -> & ->)|[-> ->]].
      * left. exists (b :: bs1), bs2. split; [|split]; reflexivity.
      * right. split; reflexivity.
Qed.

Section WholeRun.
Variable insert_statement : list string.
Variable maxsize : Z.
Variable batches : list (list scenario_record).

Hypothesis all_bound :
  forall r, In r (List.concat batches) -> bound insert_statement r = true.
Hypothesis ids_differ : NoDup (map S_ID (List.concat batches)).

Local Abbreviation run_ := (drain no_disk_error insert_statement).
Local Abbreviation stored_ := (stored insert_statement).

Lemma run_prefix bs1 bs2 :
  batches = app bs1 bs2 ->
  idle (run_ (begin_consumer []) (map Some bs1)) /\
  table (conn (run_ (begin_consumer []) (map Some bs1))) =
    map stored_ (List.concat bs1).
Proof.
  intro Hb.
  assert (Hen : ended (run_ (begin_consumer []) (map Some bs1)) = None).
  { apply drain_batches_ok.
    - apply begin_consumer_idle.
    - reflexivity.
    - intros r Hin. apply all_bound. rewrite Hb, concat_app.
      apply in_or_app. now left.
    - cbn [begin_consumer conn connect table map app].
      rewrite Hb, concat_app, map_app in ids_differ.
      now apply NoDup_app_remove_r in ids_differ. }
  destruct (drain_batches no_disk_error insert_statement bs1
              (begin_consumer []) (begin_consumer_idle []) Hen)
    as (Hi & Ht & _).
  split; [exact Hi | exact Ht].
Qed.

(** Every state a run can reach: the consumer still draining, the table
    holding the rows of the batches it has got, or ended at [None] with
    the rows of all batches. *)
Lemma run_states s :
  steps no_disk_error insert_statement maxsize
    (launch (app (map Some batches) [None]) []) s ->
  (ended (cons s) = None /\
   exists bs1 bs2, batches = app bs1 bs2 /\
     table (conn (cons s)) = map stored_ (List.concat bs1) /\
     app (channel s) (to_put s) = app (map Some bs2) [None]) \/
  (ended (cons s) = Some Clean /\
   table (conn (cons s)) = map stored_ (List.concat batches)).
Proof.
  intro Hsteps.
  destruct (steps_fifo _ _ _ _ _ _ Hsteps) as (consumed & Hitems & Hcons).
  symmetry in Hitems.
  destruct (items_prefix _ _ _ Hitems) as [(bs1 & bs2 & Hb & -> & Hrest)|[-> _]].
  - left. destruct (run_prefix bs1 bs2 Hb) as ((_ & Hen & _) & Ht).
    rewrite Hcons. split; [exact Hen|]. exists bs1, bs2. repeat split;
      assumption.
  - right. destruct (run_prefix batches [] (eq_sym (app_nil_r _)))
      as (Hi & Ht).
    rewrite Hcons, drain_app.
    rewrite drain_cons by apply Hi. rewrite drain_nil, receive_none by exact Hi.
    cbn [ended conn table]. split; [reflexivity | exact Ht].
Qed.

End WholeRun.

Lemma spec_record_bound lib cfg parsed rho1 rho2 i :
  covers cfg parsed ->
  bound (insert_to_table_base_columns cfg)
        (spec_record lib cfg parsed rho1 rho2 i) = true.
Proof.
  intro Hcov. unfold bound. apply forallb_forall. intros c Hc.
  apply mem_In. unfold insert_to_table_base_columns in Hc.
  unfold record_keys. cbn [app In] in Hc.
  destruct Hc as [<-|[<-|Hc]].
  - now left.
  - right. now left.
  - right. right. apply in_map_iff in Hc. destruct Hc as (k & <- & Hk).
    apply Hcov in Hk. unfold dict_keys in Hk. apply in_map_iff in Hk.
    destruct Hk as ([k' v] & Hfst & Hin). cbn [fst] in Hfst. subst k'.
    cbn [spec_record L_RATIO]. rewrite map_map. apply in_map_iff.
    exists (k, v). split; [reflexivity | assumption].
Qed.

Lemma map_S_ID_stored cols rows :
  map S_ID (map (stored cols) rows) = map S_ID rows.
Proof. rewrite map_map. reflexivity. Qed.

(** ** Claims about the run as a whole *)

(** C3: the records of a run of N scenarios carry, in the order in which
    they are put on the queue, the identifiers 1, 2, ..., N.  With a
    threshold set for every rate, a fresh table and an engine that does not
    fail, in every state the two processes can reach through the queue the
    table holds the identifiers 1, ..., n for some n, in this order; the
    run cannot stop before the consumer has ended; and when it has ended
    it has ended at [None] and the table holds exactly 1, ..., N.  Such a
    state is reached. *)
Theorem scenario_ids_contiguous_in_order
    (lib : library) (cfg : globals) (g0 : rng lib)
    (file : list json_object) (year : Z) (rho : pyfloat)
    (parsed : ratings) (items : list item) :
  load_thresholds lib cfg file year = Ok parsed ->
  covers cfg parsed ->
  simulate_losses_monte_carlo lib cfg g0 file year rho = Ok items ->
  map S_ID (all_records items) =
    ids_upto (Z.to_nat (ECONOMIC_SCENARIOS cfg)) /\
  (forall s,
     steps no_disk_error (insert_to_table_base_columns cfg)
           (MAX_QUEUE_SIZE cfg) (launch items []) s ->
     (exists n, map S_ID (table (conn (cons s))) = ids_upto n) /\
     (ended (cons s) = None ->
      exists s', step no_disk_error (insert_to_table_base_columns cfg)
                      (MAX_QUEUE_SIZE cfg) s s') /\
     (ended (cons s) <> None ->
      ended (cons s) = Some Clean /\
      map S_ID (table (conn (cons s))) =
        ids_upto (Z.to_nat (ECONOMIC_SCENARIOS cfg)))) /\
  (exists s,
     steps no_disk_error (insert_to_table_base_columns cfg)
           (MAX_QUEUE_SIZE cfg) (launch items []) s /\
     ended (cons s) = Some Clean).
Proof.
  intros Hload Hcov Hsim. unfold simulate_losses_monte_carlo in Hsim.
  rewrite Hload in Hsim. inversion Hsim; subst items; clear Hsim.
  pose proof (load_thresholds_zeroed lib cfg file year parsed Hload) as Hz.
  set (n := Z.to_nat (ECONOMIC_SCENARIOS cfg)).
  set (r1 := rho1_of lib rho). set (r2 := rho2_of lib rho).
  assert (Hrec : all_records (finish (run_scenarios lib cfg parsed rho)) =
                 spec_records lib cfg parsed r1 r2 n).
  { rewrite all_records_finish. unfold run_scenarios.
    now apply scenarios_spec. }
  assert (Hids : map S_ID (all_records (finish (run_scenarios lib cfg parsed rho)))
                 = ids_upto n).
  { rewrite Hrec. apply spec_records_ids. }
  destruct (finish_batches lib cfg parsed r1 r2 n) as (batches & Hfin & _).
  change (scenarios lib cfg n r1 r2 (start lib parsed))
    with (run_scenarios lib cfg parsed rho) in Hfin.
  rewrite Hfin in Hrec, Hids |- *.
  assert (Hcat : List.concat batches = spec_records lib cfg parsed r1 r2 n).
  { rewrite <- Hrec, all_records_app, all_records_batches.
    cbn. now rewrite app_nil_r. }
  assert (Hbound : forall r, In r (List.concat batches) ->
            bound (insert_to_table_base_columns cfg) r = true).
  { intros r Hin. rewrite Hcat in Hin. unfold spec_records in Hin.
    apply in_map_iff in Hin. destruct Hin as (i & <- & _).
    now apply spec_record_bound. }
  assert (Hnd : NoDup (map S_ID (List.concat batches))).
  { rewrite Hcat, spec_records_ids. apply ids_upto_NoDup. }
  assert (Hall : map S_ID (List.concat batches) = ids_upto n).
  { rewrite Hcat. apply spec_records_ids. }
  split; [exact Hids|]. split.
  - intros s Hsteps.
    destruct (run_states _ (MAX_QUEUE_SIZE cfg) batches Hbound Hnd s Hsteps)
      as [(Hen & bs1 & bs2 & Hb & Ht & Hleft)|(Hen & Ht)].
    + split; [|split].
      * exists (List.length (map S_ID (List.concat bs1))).
        rewrite Ht, map_S_ID_stored. apply (ids_upto_prefix n _
          (map S_ID (List.concat bs2))).
        now rewrite <- Hall, Hb, concat_app, map_app.
      * intros _. apply step_possible; [exact Hen|].
        rewrite Hleft. destruct (map Some bs2); discriminate.
      * intro Hne. congruence.
    + split; [|split].
      * exists n. now rewrite Ht, map_S_ID_stored.
      * intro Hnone. congruence.
      * intros _. split; [exact Hen|]. now rewrite Ht, map_S_ID_stored.
  - destruct (steps_complete no_disk_error (insert_to_table_base_columns cfg)
                (MAX_QUEUE_SIZE cfg) (launch (app (map Some batches) [None]) []))
      as (s & Hsteps & Hdone).
    exists s. split; [exact Hsteps|].
    destruct (run_states _ (MAX_QUEUE_SIZE cfg) batches Hbound Hnd s Hsteps)
      as [(Hen & bs1 & bs2 & Hb & Ht & Hleft)|(Hen & Ht)].
    + destruct Hdone as [Hne|Hempty]; [congruence|].
      rewrite Hleft in Hempty. destruct (map Some bs2); discriminate.
    + exact Hen.
Qed.

Lemma scenario_ids_contiguous_in_order_witness :
  map S_ID (all_records
              (finish (run_scenarios small_lib small_run small_parsed (Fin 0))))
  = ids_upto 3.
Proof.
  refine (proj1 (scenario_ids_contiguous_in_order small_lib small_run []
                   small_file 3 (Fin 0) small_parsed
                   (finish (run_scenarios small_lib small_run small_parsed
                              (Fin 0))) _ _ _)).
  - reflexivity.
  - intros k [<-|[<-|[]]]; cbn; auto.
  - reflexivity.
Defined.

(** ** Claims about the consumer *)







(** ** Column names *)

Lemma length_append (a b : string) :
  String.length (a ++ b) = (String.length a + String.length b)%nat.
Proof.
  induction a as [|c a IH]; cbn [String.append String.length].
  - reflexivity.
  - now rewrite IH.
Qed.

Lemma append_inj_l (s : string) : forall a b : string,
  (a ++ s)%string = (b ++ s)%string -> a = b.
Proof.
  induction a as [|c a IH]; intros [|c' b] H.
  - reflexivity.
  - apply (f_equal String.length) in H. rewrite !length_append in H.
    cbn [String.length] in H. lia.
  - apply (f_equal String.length) in H. rewrite !length_append in H.
    cbn [String.length] in H. lia.
  - cbn [String.append] in H. inversion H; subst. f_equal. now apply IH.
Qed.

Lemma eqb_append (s a b : string) :
  String.eqb (a ++ s) (b ++ s) = String.eqb a b.
Proof.
  destruct (String.eqb_spec a b) as [->|Hne].
  - apply String.eqb_refl.
  - apply String.eqb_neq. intro H. apply Hne. now apply append_inj_l in H.
Qed.

(** The loss ratio of a category is found under the name of its column. *)
Lemma dict_get_ratio (f : rating -> Q) (k : string) (parsed : ratings) :
  dict_get (k ++ "_L_RATIO")
    (map (fun kv => ((fst kv ++ "_L_RATIO")%string, f (snd kv))) parsed) =
  option_map f (dict_get k parsed).
Proof.
  induction parsed as [|[k' v] parsed IH]; cbn [map dict_get fst snd].
  - reflexivity.
  - rewrite eqb_append. destruct (String.eqb k k'); [reflexivity | exact IH].
Qed.

Lemma ratio_column_not_base (k : string) :
  mem (k ++ "_L_RATIO") ["S_ID"; "Y"]%string = false.
Proof.
  unfold mem. cbn [existsb].
  assert (H : forall s : string, (String.length s < 8)%nat ->
            String.eqb (k ++ "_L_RATIO") s = false).
  { intros s Hs. apply String.eqb_neq. intro Heq.
    apply (f_equal String.length) in Heq. rewrite length_append in Heq.
    cbn [String.length] in Heq. lia. }
  rewrite !H by (cbn; lia). reflexivity.
Qed.

(** ** Infinite thresholds *)

Lemma flt_neg_inf x : flt x NegInf = false.
Proof. now destruct x. Qed.

Lemma defaults_neg_inf Xs : defaults NegInf Xs = 0.
Proof.
  induction Xs as [|X Xs IH].
  - reflexivity.
  - now rewrite defaults_cons, flt_neg_inf, IH.
Qed.

Lemma defaults_pos_inf Xs :
  Forall (fun X => is_finite X = true) Xs ->
  defaults PosInf Xs = Z.of_nat (List.length Xs).
Proof.
  induction 1 as [|X Xs HX _ IH].
  - reflexivity.
  - rewrite defaults_cons, IH. destruct X; try discriminate.
    cbn [flt List.length]. lia.
Qed.

Lemma asset_value_finite Yv Zv rho1 rho2 :
  is_finite Yv = true -> is_finite Zv = true ->
  is_finite rho1 = true -> is_finite rho2 = true ->
  is_finite (asset_value Yv Zv rho1 rho2) = true.
Proof.
  destruct Yv, Zv, rho1, rho2; try discriminate. reflexivity.
Qed.

Lemma draws_finite lib n : forall g,
  finite_draws lib ->
  Forall (fun z => is_finite z = true) (fst (draws lib n g)).
Proof.
  induction n as [|n IH]; intros g Hfin; cbn [draws].
  - constructor.
  - pose proof (Hfin g) as Hz.
    destruct (np_random_standard_normal lib g) as [z g'].
    specialize (IH g' Hfin). destruct (draws lib n g') as [zs g''].
    cbn [fst] in *. now constructor.
Qed.

Lemma scenario_values_finite lib cfg rho1 rho2 i :
  finite_draws lib -> is_finite rho1 = true -> is_finite rho2 = true ->
  Forall (fun X => is_finite X = true) (scenario_values lib cfg rho1 rho2 i).
Proof.
  intros Hfin H1 H2. unfold scenario_values, asset_values.
  apply Forall_map.
  eapply Forall_impl; [|apply draws_finite; exact Hfin].
  intros z Hz. apply asset_value_finite; try assumption.
  unfold systemic. apply Hfin.
Qed.

Lemma parse_ratings_total lib e ks : forall acc,
  (forall k, In k ks -> dict_get k e <> None) ->
  exists parsed, parse_ratings lib e ks acc = Ok parsed.
Proof.
  induction ks as [|k ks IH]; intros acc Hall; cbn [parse_ratings].
  - now exists acc.
  - destruct (dict_get k e) as [p|] eqn:Hk.
    + apply IH. intros k' Hin. apply Hall. now right.
    + exfalso. apply (Hall k); [now left | assumption].
Qed.

Lemma recorded_ratio_full cfg :
  0 < PORTFOLIO_SIZE cfg -> (recorded_ratio cfg (PORTFOLIO_SIZE cfg) == 1)%Q.
Proof.
  intro HP. unfold recorded_ratio.
  destruct (Z.eqb_spec (PORTFOLIO_SIZE cfg) 0) as [H0|_]; [lia|].
  unfold Qdiv. apply Qmult_inv_r.
  intro H. unfold Qeq in H. cbn in H. lia.
Qed.

(** ** Claims about the values the loader accepts *)

(** C9: a stored percentage of exactly 100 or exactly 0 is accepted: the
    thresholds are loaded and the run puts its records.  With
    [norm.ppf(1.0) = inf], finite draws and finite weights, the threshold
    of a category stored at 100 is [inf], every one of the
    [PORTFOLIO_SIZE] obligors defaults in every scenario, and every record
    holds the loss ratio 1 for it; with [norm.ppf(0.0) = -inf], the
    threshold of a category stored at 0 is [-inf], no obligor defaults,
    and every record holds the loss ratio 0. *)
Theorem certain_and_impossible_default
    (lib : library) (cfg : globals) (g0 : rng lib)
    (pre : list json_object) (e : json_object) (post : list json_object)
    (year : Z) (rho : pyfloat) (k : string) (p : Q) :
  ppf_at_bounds lib -> finite_draws lib ->
  is_finite (rho1_of lib rho) = true -> is_finite (rho2_of lib rho) = true ->
  0 < PORTFOLIO_SIZE cfg ->
  Forall (other_year year) pre -> year_is year e ->
  (forall k', In k' (RATES_OF_INTEREST cfg) -> dict_get k' e <> None) ->
  In k (RATES_OF_INTEREST cfg) -> dict_get k e = Some p ->
  exists parsed items v,
    load_thresholds lib cfg (app pre (e :: post)) year = Ok parsed /\
    simulate_losses_monte_carlo lib cfg g0 (app pre (e :: post)) year rho =
      Ok items /\
    dict_get k parsed = Some v /\
    ((p == 100)%Q ->
       ppf v = PosInf /\
       (forall i, scenario_defaults lib cfg (rho1_of lib rho) (rho2_of lib rho)
                    i (ppf v) = PORTFOLIO_SIZE cfg) /\
       (forall r, In r (all_records items) ->
          exists q, dict_get (k ++ "_L_RATIO") (L_RATIO r) = Some q /\
                    (q == 1)%Q)) /\
    ((p == 0)%Q ->
       ppf v = NegInf /\
       (forall i, scenario_defaults lib cfg (rho1_of lib rho) (rho2_of lib rho)
                    i (ppf v) = 0) /\
       (forall r, In r (all_records items) ->
          exists q, dict_get (k ++ "_L_RATIO") (L_RATIO r) = Some q /\
                    (q == 0)%Q)).
Proof.
  intros [Hone Hzero] Hfin H1 H2 HP Hpre He Hall Hk Hp.
  destruct (parse_ratings_total lib e (RATES_OF_INTEREST cfg) [] Hall)
    as [parsed Hparse].
  assert (Hload : load_thresholds lib cfg (app pre (e :: post)) year
                  = Ok parsed)
    by (rewrite load_thresholds_first; assumption).
  pose proof (load_thresholds_zeroed lib cfg _ _ _ Hload) as Hz.
  assert (Hv : dict_get k parsed = Some (threshold_of lib p)).
  { rewrite (parse_ratings_get lib e _ _ _ Hparse k).
    apply mem_In in Hk. now rewrite Hk, Hp. }
  set (r1 := rho1_of lib rho) in *. set (r2 := rho2_of lib rho) in *.
  assert (Hrec : all_records (finish (run_scenarios lib cfg parsed rho)) =
                 spec_records lib cfg parsed r1 r2
                   (Z.to_nat (ECONOMIC_SCENARIOS cfg))).
  { rewrite all_records_finish. unfold run_scenarios.
    now apply scenarios_spec. }
  assert (Hcol : forall r,
            In r (all_records (finish (run_scenarios lib cfg parsed rho))) ->
            exists i,
              dict_get (k ++ "_L_RATIO") (L_RATIO r) =
              Some (recorded_ratio cfg
                      (scenario_defaults lib cfg r1 r2 i
                         (ppf (threshold_of lib p))))).
  { intros r Hin. rewrite Hrec in Hin. unfold spec_records in Hin.
    apply in_map_iff in Hin. destruct Hin as (i & <- & _). exists i.
    cbn [spec_record L_RATIO].
    rewrite (dict_get_ratio
               (fun v => recorded_ratio cfg
                           (scenario_defaults lib cfg r1 r2 i (ppf v)))).
    now rewrite Hv. }
  exists parsed, (finish (run_scenarios lib cfg parsed rho)),
    (threshold_of lib p).
  split; [exact Hload|]. split.
  { unfold simulate_losses_monte_carlo. now rewrite Hload. }
  split; [exact Hv|]. split.
  - intro H100.
    assert (Hinf : ppf (threshold_of lib p) = PosInf).
    { cbn [ppf threshold_of]. apply Hone. unfold Qdiv.
      change (/ 100)%Q with (1 # 100)%Q. lra. }
    assert (Hall_default : forall i,
              scenario_defaults lib cfg r1 r2 i (ppf (threshold_of lib p))
              = PORTFOLIO_SIZE cfg).
    { intro i. rewrite Hinf. unfold scenario_defaults.
      rewrite defaults_pos_inf
        by (apply scenario_values_finite; assumption).
      rewrite scenario_values_length. unfold portfolio. lia. }
    split; [exact Hinf|]. split; [exact Hall_default|].
    intros r Hin. destruct (Hcol r Hin) as [i Hi].
    eexists. split; [exact Hi|].
    rewrite Hall_default. now apply recorded_ratio_full.
  - intro H0.
    assert (Hinf : ppf (threshold_of lib p) = NegInf).
    { cbn [ppf threshold_of]. apply Hzero. unfold Qdiv.
      change (/ 100)%Q with (1 # 100)%Q. lra. }
    assert (Hno_default : forall i,
              scenario_defaults lib cfg r1 r2 i (ppf (threshold_of lib p))
              = 0).
    { intro i. rewrite Hinf. apply defaults_neg_inf. }
    split; [exact Hinf|]. split; [exact Hno_default|].
    intros r Hin. destruct (Hcol r Hin) as [i Hi].
    eexists. split; [exact Hi|].
    rewrite Hno_default. reflexivity.
Qed.

Lemma certain_and_impossible_default_witness :
  exists items,
    simulate_losses_monte_carlo small_lib small_run [] small_file 1 (Fin 0)
      = Ok items /\
    (forall r, In r (all_records items) ->
       exists q, dict_get "B_L_RATIO" (L_RATIO r) = Some q /\ (q == 1)%Q).
Proof.
  destruct (certain_and_impossible_default small_lib small_run []
              [] [("Year", 1); ("A", 30); ("B", 100)]%string%Q
              [[("Year", 3); ("A", 30); ("B", 80)]%string%Q;
               [("Year", 3); ("A", 50); ("B", 0)]%string%Q]
              1 (Fin 0) "B"%string 100%Q)
    as (parsed & items & v & _ & Hsim & _ & H100 & _).
  - apply replay_ppf_at_bounds.
  - apply replay_finite_draws.
  - reflexivity.
  - reflexivity.
  - cbn. lia.
  - constructor.
  - exists 1%Q. split; reflexivity.
  - intros k' [<-|[<-|[]]]; discriminate.
  - right. now left.
  - reflexivity.
  - exists items. split; [exact Hsim|]. apply H100. reflexivity.
Defined.

(** ** The year that is not in the file *)


(** A consumer whose first batch starts with a record it cannot bind
    leaves the table as it found it. *)
Lemma first_row_unbound disk_error cols rows batches :
  Forall (fun b => b <> []) batches ->
  (forall r, In r (List.concat batches) -> bound cols r = false) ->
  table (conn (data_consumer disk_error cols rows
                 (app (map Some batches) [None]))) = rows /\
  pending (conn (data_consumer disk_error cols rows
                   (app (map Some batches) [None]))) = None.
Proof.
  intros Hne Hunbound. unfold data_consumer.
  destruct batches as [|b batches].
  - cbn [map app]. rewrite drain_cons by reflexivity.
    rewrite drain_nil, receive_none by apply begin_consumer_idle.
    split; reflexivity.
  - cbn [map app]. rewrite drain_cons by reflexivity.
    rewrite receive_batch by apply begin_consumer_idle.
    inversion Hne as [|b' bs' Hb _]; subst.
    destruct b as [|r b]; [contradiction|].
    cbn [insert_rows]. unfold insert_row.
    rewrite (Hunbound r) by (cbn [List.concat]; now left).
    cbn [negb snd].
    rewrite (drain_ended _ _ _ Failed) by reflexivity.
    split; reflexivity.
Qed.








(** ** The scenario of the specification

    Two obligors, correlation 0, [Y = 0], [Z = 1] and [Z = -1], one
    category with threshold 0.5: one default, loss ratio 1/2. *)
Example concrete_scenario :
  simulate_losses_monte_carlo (replay [0; 1; -1]%Q)
    (small_globals 1 2 500 ["A"]%string) []
    [[("Year", 5); ("A", 75)]%string%Q] 5 (Fin 0) =
  Ok [Some [{| S_ID := 1; Y := Fin 0;
               L_RATIO := [("A_L_RATIO"%string, 1 # 2)] |}];
      None] /\
  load_thresholds (replay [0; 1; -1]%Q) (small_globals 1 2 500 ["A"]%string)
    [[("Year", 5); ("A", 75)]%string%Q] 5 =
  Ok [("A"%string,
       {| pct := Fin (75 # 100); ppf := Fin (50 # 100); default_count := 0 |})].
Proof. split; reflexivity. Qed.


(** * Further properties of the program *)

(** ** The loader: what it raises and what it builds *)

Lemma parse_ratings_missing lib e k ks2 : forall ks1 acc,
  (forall k', In k' ks1 -> dict_get k' e <> None) ->
  dict_get k e = None ->
  parse_ratings lib e (app ks1 (k :: ks2)) acc = KeyError k.
Proof.
  induction ks1 as [|k1 ks1 IH]; intros acc Hall Hk; cbn [app parse_ratings].
  - now rewrite Hk.
  - destruct (dict_get k1 e) as [p|] eqn:H1.
    + apply IH; [|assumption]. intros k' Hin. apply Hall. now right.
    + exfalso. apply (Hall k1); [now left | assumption].
Qed.

(** X1: when the object of the year lacks a rate of [RATES_OF_INTEREST],
    the loader raises [KeyError] for the first such rate in the order of
    the list, and the function ends with it before anything is put. *)
Theorem missing_rate_raises
    (lib : library) (cfg : globals) (g0 : rng lib)
    (pre : list json_object) (e : json_object) (post : list json_object)
    (year : Z) (rho : pyfloat) (ks1 : list string) (k : string)
    (ks2 : list string) :
  Forall (other_year year) pre -> year_is year e ->
  RATES_OF_INTEREST cfg = app ks1 (k :: ks2) ->
  (forall k', In k' ks1 -> dict_get k' e <> None) ->
  dict_get k e = None ->
  load_thresholds lib cfg (app pre (e :: post)) year = KeyError k /\
  simulate_losses_monte_carlo lib cfg g0 (app pre (e :: post)) year rho =
    KeyError k.
Proof.
  intros Hpre He Hrates Hall Hk.
  assert (Hload : load_thresholds lib cfg (app pre (e :: post)) year
                  = KeyError k).
  { rewrite load_thresholds_first by assumption. rewrite Hrates.
    now apply parse_ratings_missing. }
  split; [exact Hload|].
  unfold simulate_losses_monte_carlo. now rewrite Hload.
Qed.

Lemma missing_rate_raises_witness :
  load_thresholds small_lib (small_globals 3 2 2 ["A"; "C"; "D"]%string)
    (app [[("Year", 1); ("A", 30); ("B", 100)]%string%Q]
         ([("Year", 3); ("A", 30); ("B", 80)]%string%Q
          :: [[("Year", 3); ("A", 50); ("B", 0)]%string%Q])) 3
    = KeyError "C" /\
  simulate_losses_monte_carlo small_lib
    (small_globals 3 2 2 ["A"; "C"; "D"]%string) []
    (app [[("Year", 1); ("A", 30); ("B", 100)]%string%Q]
         ([("Year", 3); ("A", 30); ("B", 80)]%string%Q
          :: [[("Year", 3); ("A", 50); ("B", 0)]%string%Q])) 3 (Fin 0)
    = KeyError "C".
Proof.
  apply (missing_rate_raises small_lib
           (small_globals 3 2 2 ["A"; "C"; "D"]%string) []
           [[("Year", 1); ("A", 30); ("B", 100)]%string%Q]
           [("Year", 3); ("A", 30); ("B", 80)]%string%Q
           [[("Year", 3); ("A", 50); ("B", 0)]%string%Q]
           3 (Fin 0) ["A"]%string "C"%string ["D"]%string).
  - constructor; [|constructor]. exists 1%Q. split; reflexivity.
  - exists 3%Q. split; reflexivity.
  - reflexivity.
  - intros k' [<-|[]]. discriminate.
  - reflexivity.
Defined.

(** X2: an object without ["Year"] that the loop reaches before it has
    found the year raises [KeyError] for ["Year"], also when an object of
    the year follows it. *)
Theorem missing_year_key_raises
    (lib : library) (cfg : globals) (g0 : rng lib)
    (pre : list json_object) (i : json_object) (post : list json_object)
    (year : Z) (rho : pyfloat) :
  Forall (other_year year) pre ->
  dict_get "Year" i = None ->
  load_thresholds lib cfg (app pre (i :: post)) year = KeyError "Year" /\
  simulate_losses_monte_carlo lib cfg g0 (app pre (i :: post)) year rho =
    KeyError "Year".
Proof.
  intros Hpre Hi.
  assert (Hload : load_thresholds lib cfg (app pre (i :: post)) year
                  = KeyError "Year").
  { induction Hpre as [|j pre (yj & Hyj & Hne) _ IH];
      cbn [app load_thresholds].
    - now rewrite Hi.
    - now rewrite Hyj, Hne. }
  split; [exact Hload|].
  unfold simulate_losses_monte_carlo. now rewrite Hload.
Qed.

Lemma missing_year_key_raises_witness :
  load_thresholds small_lib small_run
    (app [[("Year", 1); ("A", 30); ("B", 100)]%string%Q]
         ([("A", 30); ("B", 80)]%string%Q
          :: [[("Year", 3); ("A", 50); ("B", 0)]%string%Q])) 3
    = KeyError "Year" /\
  simulate_losses_monte_carlo small_lib small_run []
    (app [[("Year", 1); ("A", 30); ("B", 100)]%string%Q]
         ([("A", 30); ("B", 80)]%string%Q
          :: [[("Year", 3); ("A", 50); ("B", 0)]%string%Q])) 3 (Fin 0)
    = KeyError "Year".
Proof.
  apply (missing_year_key_raises small_lib small_run []
           [[("Year", 1); ("A", 30); ("B", 100)]%string%Q]
           [("A", 30); ("B", 80)]%string%Q
           [[("Year", 3); ("A", 50); ("B", 0)]%string%Q] 3 (Fin 0)).
  - constructor; [|constructor]. exists 1%Q. split; reflexivity.
  - reflexivity.
Defined.

Lemma dict_set_keys {V : Type} k (v : V) d k' :
  In k' (dict_keys (dict_set k v d)) <-> k' = k \/ In k' (dict_keys d).
Proof.
  unfold dict_keys.
  induction d as [|[k0 v0] d IH]; cbn [dict_set map fst In].
  - intuition.
  - destruct (String.eqb_spec k k0) as [->|Hne]; cbn [map fst In].
    + intuition.
    + rewrite IH. intuition.
Qed.

Lemma dict_set_NoDup {V : Type} k (v : V) d :
  NoDup (dict_keys d) -> NoDup (dict_keys (dict_set k v d)).
Proof.
  unfold dict_keys.
  induction d as [|[k0 v0] d IH]; cbn [dict_set map fst]; intro Hnd.
  - constructor; [intros [] | constructor].
  - inversion Hnd as [|x l Hnotin Hnd']; subst.
    destruct (String.eqb_spec k k0) as [->|Hne]; cbn [map fst].
    + now constructor.
    + constructor; [|now apply IH].
      intro Hin. apply (dict_set_keys k v d k0) in Hin.
      destruct Hin as [Heq|Hin]; [congruence | contradiction].
Qed.

Lemma parse_ratings_keys lib e ks : forall acc parsed,
  parse_ratings lib e ks acc = Ok parsed ->
  (NoDup (dict_keys acc) -> NoDup (dict_keys parsed)) /\
  (forall k, In k (dict_keys parsed) <-> In k ks \/ In k (dict_keys acc)).
Proof.
  induction ks as [|k0 ks IH]; intros acc parsed H; cbn [parse_ratings] in H.
  - inversion H; subst. split; [auto|]. intro k. cbn [In]. intuition.
  - destruct (dict_get k0 e) as [p|]; [|discriminate].
    destruct (IH _ _ H) as [Hnd Hkeys]. split.
    + intro Hacc. apply Hnd. now apply dict_set_NoDup.
    + intro k. rewrite Hkeys, dict_set_keys. cbn [In]. intuition.
Qed.

(** X3: the threshold set the loader builds from the object of the year
    has exactly the rates of [RATES_OF_INTEREST] as keys, each once (also
    when a rate is listed twice), and under each the rating built from
    the percentage that the object stores for it, its counter at zero. *)
Theorem threshold_set_is_the_rates
    (lib : library) (cfg : globals) (pre : list json_object)
    (e : json_object) (post : list json_object) (year : Z) (parsed : ratings) :
  Forall (other_year year) pre -> year_is year e ->
  load_thresholds lib cfg (app pre (e :: post)) year = Ok parsed ->
  NoDup (dict_keys parsed) /\
  (forall k, In k (dict_keys parsed) <-> In k (RATES_OF_INTEREST cfg)) /\
  (forall k v, dict_get k parsed = Some v ->
     exists p, dict_get k e = Some p /\
               v = {| pct := Fin (p / 100);
                      ppf := norm_ppf lib (Fin (p / 100));
                      default_count := 0 |}).
Proof.
  intros Hpre He Hload.
  rewrite load_thresholds_first in Hload by assumption.
  destruct (parse_ratings_keys lib e _ _ _ Hload) as [Hnd Hkeys].
  split; [apply Hnd; constructor|]. split.
  - intro k. rewrite Hkeys. cbn [dict_keys map In]. intuition.
  - intros k v Hv. rewrite (parse_ratings_get lib e _ _ _ Hload k) in Hv.
    destruct (mem k (RATES_OF_INTEREST cfg)); [|discriminate].
    destruct (dict_get k e) as [p|]; [|discriminate].
    exists p. split; [reflexivity|]. cbn [option_map] in Hv.
    now inversion Hv.
Qed.

Lemma threshold_set_is_the_rates_witness :
  NoDup (dict_keys small_parsed) /\
  (forall k, In k (dict_keys small_parsed) <->
             In k ["A"; "B"; "A"]%string) /\
  (forall k v, dict_get k small_parsed = Some v ->
     exists p,
       dict_get k [("Year", 3); ("A", 30); ("B", 80)]%string%Q = Some p /\
       v = {| pct := Fin (p / 100);
              ppf := replay_ppf (Fin (p / 100));
              default_count := 0 |}).
Proof.
  apply (threshold_set_is_the_rates small_lib
           (small_globals 3 2 2 ["A"; "B"; "A"]%string)
           [[("Year", 1); ("A", 30); ("B", 100)]%string%Q]
           [("Year", 3); ("A", 30); ("B", 80)]%string%Q
           [[("Year", 3); ("A", 50); ("B", 0)]%string%Q] 3 small_parsed).
  - constructor; [|constructor]. exists 1%Q. split; reflexivity.
  - exists 3%Q. split; reflexivity.
  - reflexivity.
Defined.

(** ** The producer: how the records are cut into batches *)

Lemma batch_sizes_batches batches :
  batch_sizes (map Some batches) = map (fun b => Z.of_nat (List.length b)) batches.
Proof. unfold batch_sizes. now rewrite map_map. Qed.

(** X4: for a batch size of two or more and [N] scenarios, the batches
    put on the queue before [None] are: [(N + 1) / BATCH_SIZE] batches from
    the loop, the first of [BATCH_SIZE - 1] records and every other of
    [BATCH_SIZE]; then, when records are left, one trailing batch with
    them. *)
Theorem batches_of_a_run
    (lib : library) (cfg : globals) (parsed : ratings) (rho : pyfloat) :
  2 <= BATCH_SIZE cfg -> 0 <= ECONOMIC_SCENARIOS cfg ->
  exists batches,
    finish (run_scenarios lib cfg parsed rho) = app (map Some batches) [None]
    /\
    map (fun b => Z.of_nat (List.length b)) batches =
      app (if (ECONOMIC_SCENARIOS cfg + 1) / BATCH_SIZE cfg =? 0 then []
           else (BATCH_SIZE cfg - 1)
                :: repeat (BATCH_SIZE cfg)
                     (Z.to_nat ((ECONOMIC_SCENARIOS cfg + 1) / BATCH_SIZE cfg
                                - 1)))
          (if (ECONOMIC_SCENARIOS cfg + 1) / BATCH_SIZE cfg =? 0
           then (if ECONOMIC_SCENARIOS cfg =? 0 then []
                 else [ECONOMIC_SCENARIOS cfg])
           else (if (ECONOMIC_SCENARIOS cfg + 1) mod BATCH_SIZE cfg =? 0
                 then []
                 else [(ECONOMIC_SCENARIOS cfg + 1) mod BATCH_SIZE cfg])).
Proof.
  intros HB HN. unfold run_scenarios.
  destruct (loop_batches lib cfg parsed (rho1_of lib rho) (rho2_of lib rho)
              (Z.to_nat (ECONOMIC_SCENARIOS cfg)) HB)
    as (Hs & Hk & Hlt & Hlen & Hge & Hsizes).
  destruct (batches_of_items _
              (puts_are_batches lib cfg parsed (rho1_of lib rho)
                 (rho2_of lib rho) (Z.to_nat (ECONOMIC_SCENARIOS cfg))))
    as (bs & Hputs & _).
  set (p := scenarios lib cfg (Z.to_nat (ECONOMIC_SCENARIOS cfg))
              (rho1_of lib rho) (rho2_of lib rho) (start lib parsed)) in *.
  set (B := BATCH_SIZE cfg) in *. set (N := ECONOMIC_SCENARIOS cfg) in *.
  set (k := db_updated_x_times p) in *.
  rewrite Z2Nat.id in Hs by assumption.
  assert (Hdiv : (N + 1) / B = k).
  { symmetry. apply Z.div_unique with (r := N + 1 - B * k); [|lia].
    left. destruct Hge as [Hk0|Hge]; [rewrite Hk0 in *|]; lia. }
  assert (Hmod : (N + 1) mod B = N + 1 - B * k).
  { rewrite Z.mod_eq by lia. rewrite Hdiv. reflexivity. }
  rewrite Hputs, batch_sizes_batches in Hsizes.
  rewrite Hdiv, Hmod. unfold finish. rewrite Hputs.
  destruct (data_to_que p) as [|r b] eqn:Hd.
  - exists bs. split; [reflexivity|]. rewrite Hsizes.
    cbn [List.length] in Hlen.
    destruct (Z.eqb_spec k 0) as [Hk0|Hk0].
    + rewrite Hk0 in *. destruct (Z.eqb_spec N 0); [reflexivity | lia].
    + assert (HBk : 2 <= B * k) by nia.
      destruct (Z.eqb_spec (N + 1 - B * k) 0); [|lia].
      now rewrite app_nil_r.
  - exists (app bs [r :: b]). split.
    + now rewrite map_app, <- app_assoc.
    + rewrite map_app, Hsizes. cbn [map]. f_equal.
      destruct (Z.eqb_spec k 0) as [Hk0|Hk0].
      * rewrite Hk0 in *. cbn [List.length] in *.
        destruct (Z.eqb_spec N 0); [lia|]. f_equal. lia.
      * assert (HBk : 2 <= B * k) by nia. cbn [List.length] in *.
        destruct (Z.eqb_spec (N + 1 - B * k) 0); [lia|]. f_equal. lia.
Qed.

Lemma batches_of_a_run_witness :
  exists batches,
    finish (run_scenarios small_lib (small_globals 11 1 3 []) [] (Fin 0)) =
      app (map Some batches) [None] /\
    map (fun b => Z.of_nat (List.length b)) batches = [2; 3; 3; 3].
Proof.
  exact (batches_of_a_run small_lib (small_globals 11 1 3 []) [] (Fin 0)
           ltac:(cbn; lia) ltac:(cbn; lia)).
Defined.

Lemma one_record_batches lib cfg parsed rho1 rho2 n :
  BATCH_SIZE cfg <= 1 ->
  let p := scenarios lib cfg n rho1 rho2 (start lib parsed) in
  sim_id p = Z.of_nat n + 1 /\ db_updated_x_times p = Z.of_nat n /\
  data_to_que p = [] /\
  puts p = map (fun r => Some [r]) (all_records (puts p)).
Proof.
  intro HB. induction n as [|n IH].
  - cbn. repeat split; reflexivity.
  - cbv zeta in IH |- *. rewrite scenarios_last.
    set (p := scenarios lib cfg n rho1 rho2 (start lib parsed)) in *.
    destruct IH as (Hs & Hk & Hd & Hp).
    destruct (scenario_shape lib cfg rho1 rho2 p) as (r & _ & Hs' & Hshape).
    destruct (Z.geb_spec (sim_id p + 1)
                (BATCH_SIZE cfg * (db_updated_x_times p + 1))) as [_|Hno].
    + destruct Hshape as (Hp' & Hd' & Hk').
      rewrite Hp', Hd', Hk', Hs', Hs, Hk, Hd.
      split; [lia|]. split; [lia|]. split; [reflexivity|].
      rewrite all_records_app, map_app, <- Hp. reflexivity.
    + exfalso. rewrite Hs, Hk in Hno. nia.
Qed.

(** X5: with a batch size of one or less every scenario is put on the
    queue alone: the puts are one batch of one record per scenario, then
    [None], and no trailing batch. *)
Theorem small_batch_size_puts_each_record
    (lib : library) (cfg : globals) (parsed : ratings) (rho : pyfloat) :
  BATCH_SIZE cfg <= 1 ->
  finish (run_scenarios lib cfg parsed rho) =
    app (map (fun r => Some [r])
             (all_records (finish (run_scenarios lib cfg parsed rho))))
        [None] /\
  List.length (finish (run_scenarios lib cfg parsed rho)) =
    S (List.length (all_records (finish (run_scenarios lib cfg parsed rho)))).
Proof.
  intro HB. unfold run_scenarios.
  destruct (one_record_batches lib cfg parsed (rho1_of lib rho)
              (rho2_of lib rho) (Z.to_nat (ECONOMIC_SCENARIOS cfg)) HB)
    as (_ & _ & Hd & Hp).
  set (p := scenarios lib cfg (Z.to_nat (ECONOMIC_SCENARIOS cfg))
              (rho1_of lib rho) (rho2_of lib rho) (start lib parsed)) in *.
  assert (Hrec : all_records (finish p) = all_records (puts p)).
  { rewrite all_records_finish. unfold records. rewrite Hd.
    apply app_nil_r. }
  assert (Hfin : finish p = app (puts p) [None]).
  { unfold finish. now rewrite Hd. }
  rewrite Hrec. split.
  - rewrite Hfin. f_equal. exact Hp.
  - rewrite Hfin, length_app. cbn [List.length].
    rewrite Hp at 1. rewrite length_map. lia.
Qed.

Lemma small_batch_size_puts_each_record_witness :
  finish (run_scenarios small_lib (small_globals 3 2 1 []) [] (Fin 0)) =
    app (map (fun r => Some [r])
             (all_records
                (finish (run_scenarios small_lib (small_globals 3 2 1 [])
                           [] (Fin 0)))))
        [None] /\
  List.length
    (finish (run_scenarios small_lib (small_globals 3 2 1 []) [] (Fin 0)))
  = S (List.length
         (all_records
            (finish (run_scenarios small_lib (small_globals 3 2 1 [])
                       [] (Fin 0))))).
Proof.
  apply (small_batch_size_puts_each_record small_lib
           (small_globals 3 2 1 []) [] (Fin 0)).
  cbn. lia.
Defined.

(** ** The producer: what the runs of a sweep share *)

Lemma gen_at_portfolio lib cfg cfg' i :
  PORTFOLIO_SIZE cfg = PORTFOLIO_SIZE cfg' ->
  gen_at lib cfg i = gen_at lib cfg' i.
Proof.
  intro HP. induction i as [|i IH]; cbn [gen_at].
  - reflexivity.
  - unfold portfolio. now rewrite IH, HP.
Qed.

(** X6: runs over the same number of scenarios and the same portfolio
    size record the same systemic factors, whatever the year, the rating
    file, the correlation, the rates in use and the batch size: the draws
    do not depend on the thresholds. *)
Theorem sweep_shares_systemic_factors
    (lib : library) (cfg cfg' : globals) (g g' : rng lib)
    (file file' : list json_object) (year year' : Z) (rho rho' : pyfloat)
    (parsed parsed' : ratings) :
  ECONOMIC_SCENARIOS cfg = ECONOMIC_SCENARIOS cfg' ->
  PORTFOLIO_SIZE cfg = PORTFOLIO_SIZE cfg' ->
  load_thresholds lib cfg file year = Ok parsed ->
  load_thresholds lib cfg' file' year' = Ok parsed' ->
  systemic_factors (simulate_losses_monte_carlo lib cfg g file year rho) =
  systemic_factors (simulate_losses_monte_carlo lib cfg' g' file' year' rho').
Proof.
  intros HN HP Hload Hload'. unfold simulate_losses_monte_carlo.
  rewrite Hload, Hload'. cbn [systemic_factors].
  rewrite !all_records_finish. unfold run_scenarios.
  destruct (scenarios_spec lib cfg parsed (rho1_of lib rho) (rho2_of lib rho)
              (Z.to_nat (ECONOMIC_SCENARIOS cfg))
              (load_thresholds_zeroed lib cfg file year parsed Hload))
    as (_ & _ & _ & Hrec).
  destruct (scenarios_spec lib cfg' parsed' (rho1_of lib rho')
              (rho2_of lib rho') (Z.to_nat (ECONOMIC_SCENARIOS cfg'))
              (load_thresholds_zeroed lib cfg' file' year' parsed' Hload'))
    as (_ & _ & _ & Hrec').
  rewrite Hrec, Hrec', !spec_records_systemic, HN.
  apply map_ext. intro i. unfold systemic.
  now rewrite (gen_at_portfolio lib cfg cfg' i HP).
Qed.

Lemma sweep_shares_systemic_factors_witness :
  systemic_factors
    (simulate_losses_monte_carlo small_lib small_run [] small_file 3 (Fin 0))
  = systemic_factors
      (simulate_losses_monte_carlo small_lib
         (small_globals 3 2 500 ["B"]%string) [0%Q] small_file 1 (Fin 1)).
Proof.
  apply (sweep_shares_systemic_factors small_lib small_run
           (small_globals 3 2 500 ["B"]%string) [] [0%Q]
           small_file small_file 3 1 (Fin 0) (Fin 1) small_parsed
           [("B"%string, threshold_of small_lib 100)]).
  - reflexivity.
  - reflexivity.
  - reflexivity.
  - reflexivity.
Defined.

(** X7: the loop never changes the thresholds: after any number of
    scenarios the dictionary is the one the loader built, keys, [pct] and
    [ppf] as loaded and every counter back at zero. *)
Theorem thresholds_never_change
    (lib : library) (cfg : globals) (file : list json_object) (year : Z)
    (rho : pyfloat) (parsed : ratings) (n : nat) :
  load_thresholds lib cfg file year = Ok parsed ->
  parsed_ratings_list
    (scenarios lib cfg n (rho1_of lib rho) (rho2_of lib rho)
       (start lib parsed)) = parsed.
Proof.
  intro Hload.
  destruct (scenarios_spec lib cfg parsed (rho1_of lib rho) (rho2_of lib rho)
              n (load_thresholds_zeroed lib cfg file year parsed Hload))
    as (_ & Hp & _).
  exact Hp.
Qed.

Lemma thresholds_never_change_witness :
  parsed_ratings_list
    (scenarios small_lib small_run 2 (rho1_of small_lib (Fin 0))
       (rho2_of small_lib (Fin 0)) (start small_lib small_parsed))
  = small_parsed.
Proof.
  apply (thresholds_never_change small_lib small_run small_file 3 (Fin 0)
           small_parsed 2).
  reflexivity.
Defined.

(** ** The producer: categories share the obligors *)

Lemma flt_mono X a b :
  (a <= b)%Q -> flt X (Fin a) = true -> flt X (Fin b) = true.
Proof.
  intro Hab. destruct X as [| |x|]; cbn [flt]; try discriminate.
  - reflexivity.
  - rewrite !Qltb_lt. intro Hx. lra.
Qed.

Lemma defaults_mono a b Xs :
  (a <= b)%Q -> defaults (Fin a) Xs <= defaults (Fin b) Xs.
Proof.
  intro Hab. induction Xs as [|X Xs IH].
  - cbn. lia.
  - rewrite !defaults_cons.
    destruct (flt X (Fin a)) eqn:Ha.
    + rewrite (flt_mono X a b Hab Ha). lia.
    + destruct (flt X (Fin b)); lia.
Qed.

Lemma recorded_ratio_mono cfg c1 c2 :
  0 <= c1 -> c1 <= c2 -> c2 <= PORTFOLIO_SIZE cfg ->
  (recorded_ratio cfg c1 <= recorded_ratio cfg c2)%Q.
Proof.
  intros H0 H12 HP.
  destruct (recorded_ratio_facts cfg c1 ltac:(lia)) as (E1 & _).
  destruct (recorded_ratio_facts cfg c2 ltac:(lia)) as (E2 & L2 & _).
  destruct (Z.eqb_spec c2 0) as [Hz|Hnz].
  - assert (c1 = 0) by lia. subst c1 c2. apply Qle_refl.
  - rewrite E1, E2.
    assert (HPQ : (0 < inject_Z (PORTFOLIO_SIZE cfg))%Q)
      by (change 0%Q with (inject_Z 0); rewrite <- Zlt_Qlt; lia).
    unfold Qdiv. apply Qmult_le_compat_r.
    + rewrite <- Zle_Qle. exact H12.
    + apply Qlt_le_weak, Qinv_lt_0_compat. exact HPQ.
Qed.

(** X8: all categories are tested on the same obligors, so within every
    record the loss ratio of a category with the higher (finite) threshold
    is at least that of a category with the lower one. *)
Theorem higher_threshold_higher_loss
    (lib : library) (cfg : globals) (g0 : rng lib)
    (file : list json_object) (year : Z) (rho : pyfloat)
    (parsed : ratings) (items : list item)
    (k1 k2 : string) (v1 v2 : rating) (a b : Q) :
  0 <= PORTFOLIO_SIZE cfg ->
  load_thresholds lib cfg file year = Ok parsed ->
  simulate_losses_monte_carlo lib cfg g0 file year rho = Ok items ->
  dict_get k1 parsed = Some v1 -> dict_get k2 parsed = Some v2 ->
  ppf v1 = Fin a -> ppf v2 = Fin b -> (a <= b)%Q ->
  forall r, In r (all_records items) ->
    exists q1 q2,
      dict_get (k1 ++ "_L_RATIO") (L_RATIO r) = Some q1 /\
      dict_get (k2 ++ "_L_RATIO") (L_RATIO r) = Some q2 /\
      (q1 <= q2)%Q.
Proof.
  intros HP Hload Hsim H1 H2 Ha Hb Hab r Hin.
  unfold simulate_losses_monte_carlo in Hsim. rewrite Hload in Hsim.
  inversion Hsim; subst items; clear Hsim.
  rewrite all_records_finish in Hin. unfold run_scenarios in Hin.
  destruct (scenarios_spec lib cfg parsed (rho1_of lib rho) (rho2_of lib rho)
              (Z.to_nat (ECONOMIC_SCENARIOS cfg))
              (load_thresholds_zeroed lib cfg file year parsed Hload))
    as (_ & _ & _ & Hrec).
  rewrite Hrec in Hin. unfold spec_records in Hin.
  apply in_map_iff in Hin. destruct Hin as (i & <- & _).
  cbn [spec_record L_RATIO].
  exists (recorded_ratio cfg
            (scenario_defaults lib cfg (rho1_of lib rho) (rho2_of lib rho)
               i (ppf v1))),
         (recorded_ratio cfg
            (scenario_defaults lib cfg (rho1_of lib rho) (rho2_of lib rho)
               i (ppf v2))).
  split; [|split].
  - rewrite (dict_get_ratio
               (fun v => recorded_ratio cfg
                  (scenario_defaults lib cfg (rho1_of lib rho)
                     (rho2_of lib rho) i (ppf v)))).
    now rewrite H1.
  - rewrite (dict_get_ratio
               (fun v => recorded_ratio cfg
                  (scenario_defaults lib cfg (rho1_of lib rho)
                     (rho2_of lib rho) i (ppf v)))).
    now rewrite H2.
  - rewrite Ha, Hb. unfold scenario_defaults.
    apply recorded_ratio_mono.
    + apply defaults_nonneg.
    + now apply defaults_mono.
    + etransitivity; [apply defaults_le_length|].
      rewrite scenario_values_length. unfold portfolio. lia.
Qed.

Lemma higher_threshold_higher_loss_witness :
  exists q1 q2,
    dict_get "A_L_RATIO"
      (L_RATIO {| S_ID := 2; Y := Fin 1;
                  L_RATIO := [("A_L_RATIO"%string, 0%Q);
                              ("B_L_RATIO"%string, 1 # 2)] |}) = Some q1 /\
    dict_get "B_L_RATIO"
      (L_RATIO {| S_ID := 2; Y := Fin 1;
                  L_RATIO := [("A_L_RATIO"%string, 0%Q);
                              ("B_L_RATIO"%string, 1 # 2)] |}) = Some q2 /\
    (q1 <= q2)%Q.
Proof.
  apply (higher_threshold_higher_loss small_lib small_run [] small_file 3
           (Fin 0) small_parsed
           (finish (run_scenarios small_lib small_run small_parsed (Fin 0)))
           "A"%string "B"%string
           (threshold_of small_lib 30) (threshold_of small_lib 80)
           (2 * (30 / 100) - 1)%Q (2 * (80 / 100) - 1)%Q).
  - cbn. lia.
  - reflexivity.
  - reflexivity.
  - reflexivity.
  - reflexivity.
  - reflexivity.
  - reflexivity.
  - unfold Qle. cbn. lia.
  - right. left. reflexivity.
Defined.

(** ** The consumer: what reaches the table *)

Lemma stored_all cols r :
  (forall kv, In kv (L_RATIO r) -> mem (fst kv) cols = true) ->
  stored cols r = r.
Proof.
  intro Hall. destruct r as [id y ratios]. unfold stored.
  cbn [S_ID Y L_RATIO] in *. f_equal.
  induction ratios as [|kv ratios IH]; cbn [filter].
  - reflexivity.
  - rewrite (Hall kv) by now left. f_equal. apply IH.
    intros kv' Hin. apply Hall. now right.
Qed.

Lemma load_thresholds_keys lib cfg file year parsed :
  load_thresholds lib cfg file year = Ok parsed ->
  forall k, In k (dict_keys parsed) -> In k (RATES_OF_INTEREST cfg).
Proof.
  induction file as [|i file IH]; cbn [load_thresholds]; intros H k Hk.
  - inversion H; subst. destruct Hk.
  - destruct (dict_get "Year" i) as [y|]; [|discriminate].
    destruct (Qeq_bool y (inject_Z year)).
    + destruct (parse_ratings_keys lib i _ _ _ H) as [_ Hkeys].
      apply Hkeys in Hk. destruct Hk as [Hk|[]]. exact Hk.
    + now apply IH.
Qed.

(** X9: with a threshold for every rate in use, a fresh table and an
    engine that does not fail, the consumer fed with the puts of a run ends
    at [None] and the table is the list of the records generated, in
    order, every row with its identifier, its [Y] and all its loss ratios:
    nothing is dropped or changed on the way. *)
Theorem persisted_rows_are_the_records
    (lib : library) (cfg : globals) (g0 : rng lib)
    (file : list json_object) (year : Z) (rho : pyfloat)
    (parsed : ratings) (items : list item) :
  load_thresholds lib cfg file year = Ok parsed ->
  covers cfg parsed ->
  simulate_losses_monte_carlo lib cfg g0 file year rho = Ok items ->
  ended (data_consumer no_disk_error (insert_to_table_base_columns cfg) []
           items) = Some Clean /\
  table (conn (data_consumer no_disk_error (insert_to_table_base_columns cfg)
                 [] items)) = all_records items /\
  all_records items =
    spec_records lib cfg parsed (rho1_of lib rho) (rho2_of lib rho)
      (Z.to_nat (ECONOMIC_SCENARIOS cfg)).
Proof.
  intros Hload Hcov Hsim. unfold simulate_losses_monte_carlo in Hsim.
  rewrite Hload in Hsim. inversion Hsim; subst items; clear Hsim.
  pose proof (load_thresholds_zeroed lib cfg file year parsed Hload) as Hz.
  set (n := Z.to_nat (ECONOMIC_SCENARIOS cfg)).
  set (r1 := rho1_of lib rho). set (r2 := rho2_of lib rho).
  assert (Hrec : all_records (finish (run_scenarios lib cfg parsed rho)) =
                 spec_records lib cfg parsed r1 r2 n).
  { rewrite all_records_finish. unfold run_scenarios.
    now apply scenarios_spec. }
  destruct (finish_batches lib cfg parsed r1 r2 n) as (batches & Hfin & _).
  change (scenarios lib cfg n r1 r2 (start lib parsed))
    with (run_scenarios lib cfg parsed rho) in Hfin.
  rewrite Hfin in Hrec |- *.
  assert (Hcat : List.concat batches = spec_records lib cfg parsed r1 r2 n).
  { rewrite <- Hrec, all_records_app, all_records_batches.
    cbn. now rewrite app_nil_r. }
  assert (Hbound : forall r, In r (List.concat batches) ->
            bound (insert_to_table_base_columns cfg) r = true).
  { intros r Hin. rewrite Hcat in Hin. unfold spec_records in Hin.
    apply in_map_iff in Hin. destruct Hin as (i & <- & _).
    now apply spec_record_bound. }
  assert (Hnd : NoDup (map S_ID (List.concat batches))).
  { rewrite Hcat, spec_records_ids. apply ids_upto_NoDup. }
  assert (Hsame : map (stored (insert_to_table_base_columns cfg))
                      (List.concat batches) = List.concat batches).
  { rewrite <- (map_id (List.concat batches)) at 2. apply map_ext_in.
    intros r Hin. apply stored_all. intros kv Hkv.
    rewrite Hcat in Hin. unfold spec_records in Hin.
    apply in_map_iff in Hin. destruct Hin as (i & <- & _).
    cbn [spec_record L_RATIO] in Hkv. apply in_map_iff in Hkv.
    destruct Hkv as ([k v] & <- & Hkv). cbn [fst snd].
    apply mem_In. unfold insert_to_table_base_columns.
    apply in_or_app. right.
    apply (in_map (fun i => (i ++ "_L_RATIO")%string)
                  (RATES_OF_INTEREST cfg) k).
    apply (load_thresholds_keys lib cfg file year parsed Hload).
    unfold dict_keys. apply (in_map fst) in Hkv. exact Hkv. }
  destruct (run_prefix (insert_to_table_base_columns cfg) batches Hbound Hnd
              batches [] (eq_sym (app_nil_r _))) as (Hi & Ht).
  unfold data_consumer. rewrite drain_app.
  rewrite drain_cons by apply Hi. rewrite drain_nil, receive_none by exact Hi.
  cbn [ended conn table]. split; [reflexivity|]. split.
  - rewrite Ht, Hsame, all_records_app, all_records_batches.
    cbn. now rewrite app_nil_r.
  - exact Hrec.
Qed.

Lemma persisted_rows_are_the_records_witness :
  ended (data_consumer no_disk_error (insert_to_table_base_columns small_run)
           [] (finish (run_scenarios small_lib small_run small_parsed (Fin 0))))
    = Some Clean /\
  table (conn (data_consumer no_disk_error
                 (insert_to_table_base_columns small_run) []
                 (finish (run_scenarios small_lib small_run small_parsed
                            (Fin 0)))))
    = all_records
        (finish (run_scenarios small_lib small_run small_parsed (Fin 0))) /\
  all_records (finish (run_scenarios small_lib small_run small_parsed (Fin 0)))
    = spec_records small_lib small_run small_parsed
        (rho1_of small_lib (Fin 0)) (rho2_of small_lib (Fin 0)) (Z.to_nat 3).
Proof.
  apply (persisted_rows_are_the_records small_lib small_run [] small_file 3
           (Fin 0) small_parsed
           (finish (run_scenarios small_lib small_run small_parsed (Fin 0)))).
  - reflexivity.
  - intros k [<-|[<-|[]]]; cbn; auto.
  - reflexivity.
Defined.

Lemma has_key_true id rows :
  In id (map S_ID rows) -> has_key id rows = true.
Proof.
  intro Hin. unfold has_key. apply existsb_exists.
  apply in_map_iff in Hin. destruct Hin as (r & Hid & Hr).
  exists r. split; [assumption | now apply Z.eqb_eq].
Qed.

(** X10: run again on a table that already holds the scenario
    identifier 1 (the database of an earlier run), the consumer fails on
    the first row of the first batch it gets, whatever the engine and the
    thresholds: it ends through its error handler after one
    [queue.get()], and the table is left as it was. *)
Theorem second_run_on_the_same_table_fails
    (lib : library) (cfg : globals) (g0 : rng lib)
    (file : list json_object) (year : Z) (rho : pyfloat)
    (parsed : ratings) (items : list item)
    (disk_error : list scenario_record -> scenario_record -> bool)
    (rows : list scenario_record) :
  load_thresholds lib cfg file year = Ok parsed ->
  simulate_losses_monte_carlo lib cfg g0 file year rho = Ok items ->
  0 < ECONOMIC_SCENARIOS cfg ->
  In 1 (map S_ID rows) ->
  ended (data_consumer disk_error (insert_to_table_base_columns cfg) rows
           items) = Some Failed /\
  table (conn (data_consumer disk_error (insert_to_table_base_columns cfg)
                 rows items)) = rows /\
  gets (data_consumer disk_error (insert_to_table_base_columns cfg) rows
          items) = 1%nat.
Proof.
  intros Hload Hsim HN Hone. unfold simulate_losses_monte_carlo in Hsim.
  rewrite Hload in Hsim. inversion Hsim; subst items; clear Hsim.
  pose proof (load_thresholds_zeroed lib cfg file year parsed Hload) as Hz.
  set (n := Z.to_nat (ECONOMIC_SCENARIOS cfg)).
  set (r1 := rho1_of lib rho). set (r2 := rho2_of lib rho).
  assert (Hrec : all_records (finish (run_scenarios lib cfg parsed rho)) =
                 spec_records lib cfg parsed r1 r2 n).
  { rewrite all_records_finish. unfold run_scenarios.
    now apply scenarios_spec. }
  destruct (finish_batches lib cfg parsed r1 r2 n) as (batches & Hfin & Hne).
  change (scenarios lib cfg n r1 r2 (start lib parsed))
    with (run_scenarios lib cfg parsed rho) in Hfin.
  rewrite Hfin in Hrec |- *.
  rewrite all_records_app, all_records_batches in Hrec.
  cbn [all_records flat_map batch_of app] in Hrec. rewrite app_nil_r in Hrec.
  assert (Hn : exists n', n = S n') by (exists (Nat.pred n); lia).
  destruct Hn as [n' Hn]. rewrite Hn in Hrec.
  unfold spec_records in Hrec. cbn [seq map] in Hrec.
  destruct batches as [|b batches]; [discriminate|].
  inversion Hne as [|b0 bs0 Hb _]; subst.
  destruct b as [|r b]; [contradiction|].
  cbn [List.concat app] in Hrec. injection Hrec as Hr _.
  unfold data_consumer. cbn [map app].
  rewrite drain_cons by reflexivity.
  rewrite receive_batch by apply begin_consumer_idle.
  cbn [begin_consumer conn connect table gets insert_rows].
  assert (Hfail : insert_row disk_error (insert_to_table_base_columns cfg)
                    rows r = None).
  { unfold insert_row.
    destruct (negb (bound (insert_to_table_base_columns cfg) r));
      [reflexivity|].
    rewrite has_key_true; [reflexivity|]. rewrite Hr. exact Hone. }
  rewrite Hfail. cbn [snd].
  rewrite (drain_ended _ _ _ Failed) by reflexivity.
  repeat split; reflexivity.
Qed.

Lemma second_run_on_the_same_table_fails_witness :
  ended (data_consumer no_disk_error (insert_to_table_base_columns small_run)
           [bare_record 1]
           (finish (run_scenarios small_lib small_run small_parsed (Fin 0))))
    = Some Failed /\
  table (conn (data_consumer no_disk_error
                 (insert_to_table_base_columns small_run) [bare_record 1]
                 (finish (run_scenarios small_lib small_run small_parsed
                            (Fin 0)))))
    = [bare_record 1] /\
  gets (data_consumer no_disk_error (insert_to_table_base_columns small_run)
          [bare_record 1]
          (finish (run_scenarios small_lib small_run small_parsed (Fin 0))))
    = 1%nat.
Proof.
  apply (second_run_on_the_same_table_fails small_lib small_run []
           small_file 3 (Fin 0) small_parsed
           (finish (run_scenarios small_lib small_run small_parsed (Fin 0)))
           no_disk_error [bare_record 1]).
  - reflexivity.
  - reflexivity.
  - cbn. lia.
  - now left.
Defined.

(** ** The consumer: what it keeps whatever happens *)



Lemma has_key_false_not_in id rows :
  has_key id rows = false -> ~ In id (map S_ID rows).
Proof.
  intros H Hin. apply has_key_true in Hin. congruence.
Qed.

Lemma insert_rows_NoDup disk_error cols data : forall rows rows' ok,
  NoDup (map S_ID rows) ->
  insert_rows disk_error cols rows data = (rows', ok) ->
  NoDup (map S_ID rows').
Proof.
  induction data as [|r data IH]; intros rows rows' ok Hnd H;
    cbn [insert_rows] in H.
  - now inversion H; subst.
  - destruct (insert_row disk_error cols rows r) as [rows1|] eqn:Hr.
    + apply (IH rows1 rows' ok); [|exact H].
      unfold insert_row in Hr.
      destruct (negb (bound cols r)); [discriminate|].
      destruct (has_key (S_ID r) rows) eqn:Hkey; [discriminate|].
      destruct (disk_error rows r); [discriminate|].
      inversion Hr; subst. rewrite map_app. cbn [map].
      apply NoDup_app.
      * exact Hnd.
      * constructor; [intros [] | constructor].
      * intros id Hin [Heq|[]]. subst id.
        now apply has_key_false_not_in in Hkey.
    + now inversion H; subst.
Qed.

Lemma drain_keys_differ disk_error cols items : forall c,
  idle c -> NoDup (map S_ID (table (conn c))) ->
  NoDup (map S_ID (table (conn (drain disk_error cols c items)))).
Proof.
  induction items as [|x items IH]; intros c Hidle Hnd.
  - now rewrite drain_nil.
  - pose proof Hidle as (Ht & He & Hp & Hc).
    rewrite drain_cons by assumption. destruct x as [b|].
    + rewrite receive_batch by assumption.
      destruct (insert_rows disk_error cols (table (conn c)) b)
        as [rows' ok] eqn:Hins.
      cbn [fst snd]. destruct ok.
      * apply IH; [repeat split; reflexivity|].
        cbn [conn table]. eapply insert_rows_NoDup; eassumption.
      * now rewrite (drain_ended _ _ _ Failed) by reflexivity.
    + rewrite receive_none by assumption.
      now rewrite (drain_ended _ _ _ Clean) by reflexivity.
Qed.

(** X12: the table never holds two rows with the same scenario
    identifier: if the identifiers of the table the consumer finds differ
    from one another, so do those of the table it leaves, whatever the
    queue delivers (batches that repeat an identifier included). *)
Theorem scenario_id_stays_a_key
    (disk_error : list scenario_record -> scenario_record -> bool)
    (insert_statement : list string) (rows : list scenario_record)
    (items : list item) :
  NoDup (map S_ID rows) ->
  NoDup (map S_ID
           (table (conn (data_consumer disk_error insert_statement rows
                           items)))).
Proof.
  intro Hnd. unfold data_consumer.
  apply drain_keys_differ; [apply begin_consumer_idle | exact Hnd].
Qed.

Lemma scenario_id_stays_a_key_witness :
  NoDup (map S_ID
           (table (conn (data_consumer no_disk_error ["S_ID"; "Y"]%string
                           [bare_record 1]
                           [Some [bare_record 2; bare_record 3];
                            Some [bare_record 4; bare_record 2];
                            None])))).
Proof.
  apply (scenario_id_stays_a_key no_disk_error ["S_ID"; "Y"]%string
           [bare_record 1]
           [Some [bare_record 2; bare_record 3];
            Some [bare_record 4; bare_record 2]; None]).
  cbn. constructor; [intros [] | constructor].
Defined.

(** ** The queue: its bound, and what it does to the producer *)

(** X13: a bounded queue never holds more items than its size: in every
    state the two processes can reach, at most [maxsize] batches wait
    between them. *)
Theorem queue_never_over_its_size
    (disk_error : list scenario_record -> scenario_record -> bool)
    (insert_statement : list string) (maxsize : Z)
    (items : list item) (rows : list scenario_record) (s : system) :
  0 < maxsize ->
  steps disk_error insert_statement maxsize (launch items rows) s ->
  Z.of_nat (List.length (channel s)) <= maxsize.
Proof.
  intros Hmax Hsteps. remember (launch items rows) as s0 eqn:Hs0.
  induction Hsteps as [s|s1 s2 s3 _ IH Hstep].
  - subst s. cbn. lia.
  - specialize (IH Hs0).
    destruct Hstep as [x rest ch c Hfull | tp x ch c Hen];
      cbn [channel] in *.
    + unfold full in Hfull. rewrite length_app. cbn [List.length].
      destruct (Z.ltb_spec 0 maxsize); [|lia].
      destruct (Z.leb_spec maxsize (Z.of_nat (List.length ch)));
        [discriminate | lia].
    + cbn [List.length] in IH. lia.
Qed.

Lemma queue_never_over_its_size_witness :
  Z.of_nat
    (List.length
       (channel {| to_put := [None]; channel := [Some [bare_record 1]];
                   cons := begin_consumer [] |})) <= 1.
Proof.
  apply (queue_never_over_its_size no_disk_error ["S_ID"; "Y"]%string 1
           [Some [bare_record 1]; None] []).
  - lia.
  - eapply steps_next; [apply steps_refl|].
    apply (step_put no_disk_error ["S_ID"; "Y"]%string 1
             (Some [bare_record 1]) [None] [] (begin_consumer [])).
    reflexivity.
Defined.

Lemma after_the_consumer disk_error cols maxsize s s' :
  ended (cons s) <> None ->
  steps disk_error cols maxsize s s' ->
  cons s' = cons s /\
  (List.length (channel s') + List.length (to_put s') =
   List.length (channel s) + List.length (to_put s))%nat.
Proof.
  intros Hen Hsteps. induction Hsteps as [s|s1 s2 s3 _ IH Hstep].
  - split; reflexivity.
  - destruct (IH Hen) as (Hc & Hlen).
    destruct Hstep as [x rest ch c Hfull | tp x ch c Hnone];
      cbn [cons channel to_put] in *.
    + split; [exact Hc|]. rewrite length_app. cbn [List.length] in *. lia.
    + exfalso. apply Hen. now rewrite <- Hc.
Qed.

Lemma fill_the_queue disk_error cols maxsize : forall (d : nat) s,
  0 < maxsize -> ended (cons s) <> None ->
  Z.of_nat (List.length (channel s)) + Z.of_nat d = maxsize ->
  maxsize < Z.of_nat (List.length (channel s) + List.length (to_put s)) ->
  exists s', steps disk_error cols maxsize s s' /\
             (forall s'', ~ step disk_error cols maxsize s' s'') /\
             to_put s' <> [].
Proof.
  induction d as [|d IH]; intros [tp ch c] Hmax Hen Hd Hlen;
    cbn [cons channel to_put] in *.
  - assert (Hfilled : maxsize <= Z.of_nat (List.length ch)) by lia.
    assert (Hfilled' : Z.of_nat (List.length ch) <= maxsize) by lia.
    clear Hd.
    exists {| to_put := tp; channel := ch; cons := c |}.
    split; [apply steps_refl|]. split.
    + intros s'' Hstep.
      inversion Hstep as [x rest ch' c' Hfull | tp' x ch' c' Hn]; subst.
      * unfold full in Hfull.
        destruct (Z.ltb_spec 0 maxsize); [|lia].
        destruct (Z.leb_spec maxsize (Z.of_nat (List.length ch)));
          [discriminate | lia].
      * contradiction.
    + cbn [to_put]. destruct tp; [cbn [List.length] in Hlen; lia|].
      discriminate.
  - destruct tp as [|x rest]; [cbn [List.length] in Hlen; lia|].
    assert (Hstep : step disk_error cols maxsize
                      {| to_put := x :: rest; channel := ch; cons := c |}
                      {| to_put := rest; channel := app ch [x]; cons := c |}).
    { apply step_put. unfold full.
      destruct (Z.ltb_spec 0 maxsize); [|lia].
      destruct (Z.leb_spec maxsize (Z.of_nat (List.length ch)));
        [lia | reflexivity]. }
    destruct (IH {| to_put := rest; channel := app ch [x]; cons := c |})
      as (s' & Hsteps & Hstuck & Hleft); cbn [cons channel to_put];
      try assumption.
    + rewrite length_app. cbn [List.length]. lia.
    + rewrite length_app. cbn [List.length] in *. lia.
    + exists s'. split; [|split; assumption].
      eapply steps_trans; [|exact Hsteps].
      eapply steps_next; [apply steps_refl | exact Hstep].
Qed.

(** X14: the producer is not told when the consumer has ended.  Once the
    consumer has ended with more items left (in the queue and still to be
    put) than the bounded queue can hold, the producer never gets to the
    end of its puts, and the run reaches a state in which nothing moves
    any more while items are still to be put: the producer waits in
    [queue.put] for good. *)
Theorem producer_waits_for_a_consumer_that_ended
    (disk_error : list scenario_record -> scenario_record -> bool)
    (insert_statement : list string) (maxsize : Z) (s : system) :
  0 < maxsize ->
  ended (cons s) <> None ->
  Z.of_nat (List.length (channel s)) <= maxsize ->
  maxsize < Z.of_nat (List.length (channel s) + List.length (to_put s)) ->
  (forall s', steps disk_error insert_statement maxsize s s' ->
              cons s' = cons s /\ to_put s' <> []) /\
  (exists s', steps disk_error insert_statement maxsize s s' /\
              (forall s'', ~ step disk_error insert_statement maxsize s' s'')
              /\ to_put s' <> []).
Proof.
  intros Hmax Hen Hcap Hlen. split.
  - intros s' Hsteps.
    destruct (after_the_consumer _ _ _ _ _ Hen Hsteps) as (Hc & Hsum).
    split; [exact Hc|].
    assert (Hcap' : Z.of_nat (List.length (channel s')) <= maxsize).
    { clear Hsum. induction Hsteps as [s|s1 s2 s3 Hs12 IH Hstep].
      - exact Hcap.
      - specialize (IH Hen Hcap Hlen).
        destruct (after_the_consumer _ _ _ _ _ Hen Hs12) as (Hc12 & _).
        assert (IH' : Z.of_nat (List.length (channel s2)) <= maxsize)
          by (apply IH; exact Hc12).
        destruct Hstep as [x rest ch c Hfull | tp x ch c Hnone];
          cbn [channel] in *.
        + unfold full in Hfull. rewrite length_app. cbn [List.length].
          destruct (Z.ltb_spec 0 maxsize); [|lia].
          destruct (Z.leb_spec maxsize (Z.of_nat (List.length ch)));
            [discriminate | lia].
        + cbn [List.length] in IH'. lia. }
    destruct (to_put s'); [cbn [List.length] in Hsum; lia | discriminate].
  - apply (fill_the_queue disk_error insert_statement maxsize
             (Z.to_nat (maxsize - Z.of_nat (List.length (channel s)))) s);
      try assumption. lia.
Qed.

Lemma producer_waits_for_a_consumer_that_ended_witness :
  (forall s',
     steps no_disk_error ["S_ID"; "Y"]%string 1
       {| to_put := [Some [bare_record 4]; None]; channel := [];
          cons := data_consumer no_disk_error ["S_ID"; "Y"]%string
                    [bare_record 1] [Some [bare_record 1]] |} s' ->
     cons s' = data_consumer no_disk_error ["S_ID"; "Y"]%string
                 [bare_record 1] [Some [bare_record 1]] /\
     to_put s' <> []) /\
  (exists s',
     steps no_disk_error ["S_ID"; "Y"]%string 1
       {| to_put := [Some [bare_record 4]; None]; channel := [];
          cons := data_consumer no_disk_error ["S_ID"; "Y"]%string
                    [bare_record 1] [Some [bare_record 1]] |} s' /\
     (forall s'', ~ step no_disk_error ["S_ID"; "Y"]%string 1 s' s'') /\
     to_put s' <> []).
Proof.
  apply (producer_waits_for_a_consumer_that_ended no_disk_error
           ["S_ID"; "Y"]%string 1
           {| to_put := [Some [bare_record 4]; None]; channel := [];
              cons := data_consumer no_disk_error ["S_ID"; "Y"]%string
                        [bare_record 1] [Some [bare_record 1]] |}).
  - lia.
  - discriminate.
  - cbn. lia.
  - cbn. lia.
Defined.

(** ** The columns of the table *)

Lemma ratio_column_not_in_base k :
  ~ In (k ++ "_L_RATIO")%string ["S_ID"; "Y"]%string.
Proof.
  intro Hin. apply mem_In in Hin. rewrite ratio_column_not_base in Hin.
  discriminate.
Qed.

(** X15: the columns of the insert statement differ from one another
    exactly when the rates in use do: a rate listed twice gives the table
    two columns of the same name, and no rate gives a column that collides
    with [S_ID] or [Y]. *)
Theorem columns_differ_as_rates_do (cfg : globals) :
  (NoDup (insert_to_table_base_columns cfg) <->
   NoDup (RATES_OF_INTEREST cfg)) /\
  (forall k, In k (RATES_OF_INTEREST cfg) ->
     ~ In (k ++ "_L_RATIO")%string ["S_ID"; "Y"]%string).
Proof.
  split; [|intros k _; apply ratio_column_not_in_base].
  unfold insert_to_table_base_columns. split.
  - intro Hnd. apply NoDup_app_remove_l in Hnd.
    now apply NoDup_map_inv in Hnd.
  - intro Hnd. apply NoDup_app.
    + constructor; [|constructor; [intros [] | constructor]].
      intros [H|[]]. discriminate.
    + apply Injective_map_NoDup; [|exact Hnd].
      intros a b Hab. now apply append_inj_l in Hab.
    + intros c Hbase Hratio. apply in_map_iff in Hratio.
      destruct Hratio as (k & <- & _).
      now apply ratio_column_not_in_base in Hbase.
Qed.

(** X16: the table is created with the columns the insert statement
    names, in the same order: every column of [create_table_base_columns]
    is the column of [insert_to_table_base_columns] at the same place,
    followed by a space and its type. *)
Theorem created_columns_are_the_inserted (cfg : globals) :
  Forall2 (fun created inserted =>
             exists type, created = (inserted ++ " " ++ type)%string)
          (create_table_base_columns cfg)
          (insert_to_table_base_columns cfg).
Proof.
  unfold create_table_base_columns, insert_to_table_base_columns,
    temp_columns.
  constructor; [exists "INTEGER PRIMARY KEY"%string; reflexivity|].
  constructor; [exists "DECIMAL(8)"%string; reflexivity|].
  induction (RATES_OF_INTEREST cfg) as [|k ks IH]; cbn [map].
  - constructor.
  - constructor; [|exact IH]. exists "DECIMAL(6)"%string. reflexivity.
Qed.

(** ** A correlation whose square root is not a number *)

Lemma asset_value_nan Yv Zv rho1 rho2 :
  rho1 = NaN \/ rho2 = NaN -> asset_value Yv Zv rho1 rho2 = NaN.
Proof.
  unfold asset_value. intros [-> | ->].
  - destruct Yv; cbn [fmul fadd]; reflexivity.
  - destruct Zv, (fmul Yv rho1); cbn [fmul fadd]; reflexivity.
Qed.

Lemma defaults_of_nan threshold Xs :
  Forall (fun X => X = NaN) Xs -> defaults threshold Xs = 0.
Proof.
  induction 1 as [|X Xs HX _ IH].
  - reflexivity.
  - rewrite defaults_cons, IH, HX. reflexivity.
Qed.

(** X17: when [numpy.sqrt] gives [nan] for the correlation or for one
    minus the correlation (a correlation outside [[0,1]]), the run is not
    stopped: every asset value is [nan], no comparison with a threshold
    holds, and every loss ratio of every record is 0. *)
Theorem correlation_without_root_gives_no_loss
    (lib : library) (cfg : globals) (g0 : rng lib)
    (file : list json_object) (year : Z) (rho : pyfloat)
    (parsed : ratings) (items : list item) (r : scenario_record)
    (column : string) (ratio : Q) :
  rho1_of lib rho = NaN \/ rho2_of lib rho = NaN ->
  load_thresholds lib cfg file year = Ok parsed ->
  simulate_losses_monte_carlo lib cfg g0 file year rho = Ok items ->
  In r (all_records items) -> In (column, ratio) (L_RATIO r) ->
  ratio = 0%Q.
Proof.
  intros Hnan Hload Hsim Hr Hin.
  unfold simulate_losses_monte_carlo in Hsim. rewrite Hload in Hsim.
  inversion Hsim; subst items; clear Hsim.
  rewrite all_records_finish in Hr. unfold run_scenarios in Hr.
  destruct (scenarios_spec lib cfg parsed (rho1_of lib rho) (rho2_of lib rho)
              (Z.to_nat (ECONOMIC_SCENARIOS cfg))
              (load_thresholds_zeroed lib cfg file year parsed Hload))
    as (_ & _ & _ & Hrec).
  rewrite Hrec in Hr. unfold spec_records in Hr.
  apply in_map_iff in Hr. destruct Hr as (i & <- & _).
  cbn [spec_record L_RATIO] in Hin. apply in_map_iff in Hin.
  destruct Hin as ([k v] & Heq & _). inversion Heq; subst.
  unfold scenario_defaults. rewrite defaults_of_nan; [reflexivity|].
  unfold scenario_values, asset_values. apply Forall_map.
  apply Forall_forall. intros Zv _. now apply asset_value_nan.
Qed.

Lemma correlation_without_root_gives_no_loss_witness :
  (0 # 1 = 0)%Q.
Proof.
  apply (correlation_without_root_gives_no_loss small_lib small_run []
           small_file 3 (Fin 2) small_parsed
           (finish (run_scenarios small_lib small_run small_parsed (Fin 2)))
           {| S_ID := 1; Y := Fin 0;
              L_RATIO := [("A_L_RATIO"%string, 0%Q);
                          ("B_L_RATIO"%string, 0%Q)] |}
           "B_L_RATIO"%string (0 # 1)).
  - right. reflexivity.
  - reflexivity.
  - reflexivity.
  - left. reflexivity.
  - right. left. reflexivity.
Defined.
